(** * The Zephyr auto-PTS client entry point (autoptsclient-zephyr.py)

    A shallow embedding of the script: [check_args], [parse_args], [main] and
    the [__main__] guard.  The collaborators the script imports
    (autoptsclient_common, ptsprojects.zephyr, ptsprojects.stack, pybtp.btp)
    are not part of the file: every call into them is an oracle of the
    environment that may change the outside world, return a value, raise an
    exception or terminate the process.  Each call is logged together with
    its outcome, so that properties of the script read as properties of the
    trace it leaves. *)

From Stdlib Require Import Ascii String List ZArith Bool Lia.
Import ListNotations.

Local Open Scope Z_scope.
Local Open Scope list_scope.

(** ** Python values the script manipulates *)

(** The argument of [SystemExit]: [sys.exit()] , [sys.exit(n)] and
    [sys.exit("message")]. *)
Inductive exit_arg :=
| ExitNone
| ExitInt (n : Z)
| ExitStr (msg : string).

(** The exception classes the [__main__] guard tells apart. *)
Inductive exn :=
| KeyboardInterrupt
| SystemExit (a : exit_arg)
| OtherException (name : string).

(** Outcome of a statement: it returns, it raises, or the process is gone
    ([os._exit]). *)
Inductive res (A : Type) :=
| Ret (a : A)
| Raise (e : exn)
| Halt (code : Z).
Arguments Ret {A} a.
Arguments Raise {A} e.
Arguments Halt {A} code.

(** Truth value of [None]/[str] and of [None]/[list], as [if x:] and
    [not x] test it. *)
Definition truthy_str (x : option string) : bool :=
  match x with
  | Some s => negb (String.eqb s EmptyString)
  | None => false
  end.

Definition truthy_list {A : Type} (x : option (list A)) : bool :=
  match x with
  | Some (_ :: _) => true
  | _ => false
  end.

(** [str(x)] for [x] a string or [None]. *)
Definition str (x : option string) : string :=
  match x with
  | Some s => s
  | None => "None"%string
  end.

(** The object [arg_parser.parse_args()] returns: one attribute per
    [add_argument] of [parse_args]. *)
Record Namespace := {
  ip_addr : option (list string);
  local_addr : option string;
  workspace : string;
  kernel_image : string;
  tty_file : option string;
  bd_addr : option string;
  enable_max_logs : bool;
  board : option string;
  test_cases : option (list string);
  excluded : option (list string);
  retry : Z;
  store : bool
}.

(** What the command line supplies for each declared argument, once
    argparse has matched the option strings: the raw texts, before defaults,
    [type=] conversions and [choices=] are applied. *)
Record given := {
  cl_ip_addr : option (list string);      (* -i, nargs="+" *)
  cl_local_addr : option string;          (* -l *)
  cl_workspace : string;                  (* positional *)
  cl_kernel_image : string;               (* positional *)
  cl_tty_file : option string;            (* -t *)
  cl_bd_addr : option string;             (* -a *)
  cl_debug_logs : bool;                   (* -d present *)
  cl_board : option string;               (* -b *)
  cl_test_cases : option (list string);   (* -c, nargs="+" *)
  cl_excluded : option (list string);     (* -e, nargs="+" *)
  cl_retry : option string;               (* -r *)
  cl_store : bool                         (* -s present *)
}.

Inductive command_line :=
| CL_help                 (* -h or --help comes first: help text, SystemExit(0) *)
| CL_usage_error          (* unknown option, option without value, missing positional *)
| CL_args (g : given).

(** How the process ended: [os._exit(code)], or the interpreter's default
    handling of a [SystemExit] that reached the top level, or the script
    running off its end. *)
Inductive termination :=
| Os_exit (code : Z)
| Sys_exit (a : exit_arg)
| Script_end.

(** Exit status seen by the parent process.  The interpreter exits with 0
    for [SystemExit(None)], with the integer for an integer argument, and
    prints any other argument to stderr and exits with 1; the operating
    system keeps the low eight bits. *)
Definition exit_status (t : termination) : Z :=
  match t with
  | Os_exit c => Z.land c 255
  | Sys_exit ExitNone => 0
  | Sys_exit (ExitInt n) => Z.land n 255
  | Sys_exit (ExitStr _) => 1
  | Script_end => 0
  end.

Inductive profile := GAP | GATT | SM | L2CAP.

Section Client.

(** Opaque objects of the collaborators, and the state of everything
    outside the script (engines, IUT, callback thread). *)
Context {CallbackThread Pts Stack TestCase ext : Type}.

(** [callback_thread.set_pending_response] and
    [callback_thread.clear_pending_responses]: bound methods, passed on
    but never called by the script. *)
Inductive bound_method :=
| set_pending_response (cb : CallbackThread)
| clear_pending_responses (cb : CallbackThread).

(** A call into a collaborator. *)
Definition extcall (A : Type) : Type := ext -> res A * ext.

Record Env := {
  (* the operating system and the Python runtime *)
  command_line_of : command_line;
  geteuid : Z;
  path_exists : string -> bool;              (* os.path.exists *)
  path_isfile : string -> bool;              (* os.path.isfile *)
  find_executable : string -> option string; (* distutils.spawn *)
  repr : string -> string;                   (* repr of a str *)
  py_int : string -> option Z;               (* int(text), None on ValueError *)
  (* constants of ptsprojects.zephyr.iutctl *)
  QEMU_BIN : string;
  board_names : list string;
  (* autoptsclient_common *)
  init_core : extcall CallbackThread;
  init_pts : string -> string -> option string -> bool -> CallbackThread ->
             option string -> option string -> extcall Pts;
  get_test_cases_subset : list TestCase -> option (list string) ->
                          option (list string) -> extcall (list TestCase);
  run_test_cases : list Pts -> list TestCase -> list TestCase -> Z ->
                   extcall unit;
  unregister_xmlrpc_ptscallback : Pts -> extcall unit;
  (* pybtp.btp, ptsprojects.zephyr.iutctl, ptsprojects.stack *)
  btp_init : extcall unit;
  iutctl_init : string -> option string -> option string -> extcall unit;
  iutctl_cleanup : extcall unit;
  init_stack : extcall unit;
  get_stack : extcall Stack;
  synch_init : Stack -> bound_method -> bound_method -> extcall unit;
  (* ptsprojects.zephyr.{gap,gatt,sm,l2cap,mesh} *)
  gap_test_cases : Pts -> extcall (list TestCase);
  gatt_test_cases : Pts -> extcall (list TestCase);
  sm_test_cases : Pts -> extcall (list TestCase);
  l2cap_test_cases : Pts -> extcall (list TestCase);
  mesh_test_cases : list Pts -> extcall (list TestCase * list TestCase)
}.

(** Everything the script does that is visible outside it, with the
    outcome of the call. *)
Inductive event :=
| Ev_parse_args (o : res Namespace)
| Ev_init_core (o : res CallbackThread)
| Ev_init_pts (ip ws : string) (bd : option string) (logs : bool)
              (cb : CallbackThread) (table local : option string) (o : res Pts)
| Ev_btp_init (o : res unit)
| Ev_iutctl_init (image : string) (tty brd : option string) (o : res unit)
| Ev_init_stack (o : res unit)
| Ev_get_stack (o : res Stack)
| Ev_synch_init (st : Stack) (set_pending clear_pending : bound_method)
                (o : res unit)
| Ev_test_cases (p : profile) (pts : Pts) (o : res (list TestCase))
| Ev_mesh_test_cases (ptses : list Pts)
                     (o : res (list TestCase * list TestCase))
| Ev_get_test_cases_subset (tcs : list TestCase)
                           (names excl : option (list string))
                           (o : res (list TestCase))
| Ev_run_test_cases (ptses : list Pts) (tcs additional : list TestCase)
                    (retries : Z) (o : res unit)
| Ev_iutctl_cleanup (o : res unit)
| Ev_print (text : string)
| Ev_stdout_flush
| Ev_unregister (pts : Pts) (o : res unit)
| Ev_print_exc (e : exn).

(** State of a run: the outside world and the trace so far. *)
Record pstate := { ext_st : ext; log : list event }.

Definition M (A : Type) : Type := pstate -> res A * pstate.

Definition ret {A} (a : A) : M A := fun s => (Ret a, s).
Definition raise {A} (e : exn) : M A := fun s => (Raise e, s).
Definition os_exit {A} (code : Z) : M A := fun s => (Halt code, s).

Definition bind {A B} (m : M A) (k : A -> M B) : M B :=
  fun s =>
    match m s with
    | (Ret a, s') => k a s'
    | (Raise e, s') => (Raise e, s')
    | (Halt c, s') => (Halt c, s')
    end.

Definition emit (ev : event) : M unit :=
  fun s => (Ret tt, {| ext_st := ext_st s; log := log s ++ [ev] |}).

(** Run a collaborator and log the call with what came of it. *)
Definition call {A} (f : extcall A) (ev : res A -> event) : M A :=
  fun s =>
    let (o, x) := f (ext_st s) in
    (o, {| ext_st := x; log := log s ++ [ev o] |}).

(** A pure result (of the runtime) logged as an event. *)
Definition lift {A} (o : res A) (ev : res A -> event) : M A :=
  fun s => (o, {| ext_st := ext_st s; log := log s ++ [ev o] |}).

Notation "x <- m ;; k" := (bind m (fun x => k))
  (at level 61, m at next level, right associativity).
Notation "m ;;; k" := (bind m (fun _ => k))
  (at level 61, right associativity).

Variable E : Env.

(** *** check_args (lines 32-54) *)

Definition sys_exit {A} (msg : string) : res A :=
  Raise (SystemExit (ExitStr msg)).

Definition check_args (args : Namespace) : res unit :=
  let qemu_bin := QEMU_BIN E in
  if negb (truthy_list (ip_addr args)) then
    sys_exit "Server IP address not specified!"
  else
    let tty_checked : res unit :=
      if truthy_str (tty_file args) then
        let tty := str (tty_file args) in
        if negb (String.prefix "/dev/tty" tty) &&
           negb (String.prefix "/dev/pts" tty) then
          sys_exit (repr E tty ++ " is not a TTY file!")
        else if negb (path_exists E tty) then
          sys_exit (repr E tty ++ " TTY file does not exist!")
        else Ret tt
      else
        if negb (truthy_str (find_executable E qemu_bin)) then
          sys_exit (qemu_bin ++ " is needed but not found!")
        else Ret tt in
    match tty_checked with
    | Ret _ =>
        if negb (path_isfile E (kernel_image args)) then
          sys_exit ("kernel_image " ++ repr E (kernel_image args)
                    ++ " is not a file!")
        else Ret tt
    | failed => failed
    end.

(** *** parse_args (lines 57-131) *)

(** argparse exits with status 2 on a usage error. *)
Definition argparse_error {A} : res A := Raise (SystemExit (ExitInt 2)).

(** [arg_parser.parse_args()] for the parser the script builds: defaults
    ([None], [False], 0 for [--retry]), [type=int] on [--retry],
    [choices=board_names] on [--board], [store_true] flags. *)
Definition ArgumentParser_parse_args (cl : command_line) : res Namespace :=
  match cl with
  | CL_help => Raise (SystemExit (ExitInt 0))
  | CL_usage_error => argparse_error
  | CL_args g =>
      let retry_value :=
        match cl_retry g with
        | None => Some 0
        | Some text => py_int E text
        end in
      let board_known :=
        match cl_board g with
        | None => true
        | Some b => existsb (String.eqb b) (board_names E)
        end in
      match retry_value with
      | None => argparse_error
      | Some r =>
          if board_known then
            Ret {| ip_addr := cl_ip_addr g;
                   local_addr := cl_local_addr g;
                   workspace := cl_workspace g;
                   kernel_image := cl_kernel_image g;
                   tty_file := cl_tty_file g;
                   bd_addr := cl_bd_addr g;
                   enable_max_logs := cl_debug_logs g;
                   board := cl_board g;
                   test_cases := cl_test_cases g;
                   excluded := cl_excluded g;
                   retry := r;
                   store := cl_store g |}
          else argparse_error
      end
  end.

Definition parse_args : M Namespace :=
  args <- lift (ArgumentParser_parse_args (command_line_of E)) Ev_parse_args ;;
  fun s =>
    match check_args args with
    | Ret _ => (Ret args, s)
    | Raise e => (Raise e, s)
    | Halt c => (Halt c, s)
    end.

(** *** main (lines 134-191) *)

(** Lines 148-153: one engine session per server address, in order. *)
Fixpoint connect_ptses (args : Namespace) (callback_thread : CallbackThread)
         (tc_db_table_name : option string)
         (ips : list string) (ptses : list Pts) : M (list Pts) :=
  match ips with
  | [] => ret ptses
  | ip :: rest =>
      pts <- call (init_pts E ip (workspace args) (bd_addr args)
                            (enable_max_logs args) callback_thread
                            tc_db_table_name (local_addr args))
                  (Ev_init_pts ip (workspace args) (bd_addr args)
                               (enable_max_logs args) callback_thread
                               tc_db_table_name (local_addr args)) ;;
      connect_ptses args callback_thread tc_db_table_name rest
                    (ptses ++ [pts])
  end.

(** [ptses[0]]. *)
Definition first_pts (ptses : list Pts) : M Pts :=
  match ptses with
  | p :: _ => ret p
  | [] => raise (OtherException "IndexError")
  end.

(** Lines 163-173: the primary sequence and the additional one. *)
Definition enumerate_test_cases (ptses : list Pts)
  : M (list TestCase * list TestCase) :=
  p <- first_pts ptses ;;
  tcs <- call (gap_test_cases E p) (Ev_test_cases GAP p) ;;
  p <- first_pts ptses ;;
  more <- call (gatt_test_cases E p) (Ev_test_cases GATT p) ;;
  let tcs := tcs ++ more in
  p <- first_pts ptses ;;
  more <- call (sm_test_cases E p) (Ev_test_cases SM p) ;;
  let tcs := tcs ++ more in
  p <- first_pts ptses ;;
  more <- call (l2cap_test_cases E p) (Ev_test_cases L2CAP p) ;;
  let tcs := tcs ++ more in
  if (2 <=? Z.of_nat (length ptses)) then
    both <- call (mesh_test_cases E ptses) (Ev_mesh_test_cases ptses) ;;
    let '(mesh_tcs, additional_mesh_tcs) := both in
    ret (tcs ++ mesh_tcs, additional_mesh_tcs)
  else
    ret (tcs, []).

(** Lines 175-177. *)
Definition select_test_cases (args : Namespace) (tcs : list TestCase)
  : M (list TestCase) :=
  if truthy_list (test_cases args) || truthy_list (excluded args) then
    call (get_test_cases_subset E tcs (test_cases args) (excluded args))
         (Ev_get_test_cases_subset tcs (test_cases args) (excluded args))
  else ret tcs.

(** Lines 187-188. *)
Fixpoint release_ptses (ptses : list Pts) : M unit :=
  match ptses with
  | [] => ret tt
  | pts :: rest =>
      call (unregister_xmlrpc_ptscallback E pts) (Ev_unregister pts) ;;;
      release_ptses rest
  end.

Definition bye : string := String (Ascii.ascii_of_nat 10) "Bye!".

Definition main : M unit :=
  if geteuid E =? 0 then
    raise (SystemExit (ExitStr "Please do not run this program as root."))
  else
    args <- parse_args ;;
    let tc_db_table_name :=
      if store args then Some ("zephyr_" ++ str (board args))%string
      else None in
    callback_thread <- call (init_core E) Ev_init_core ;;
    ips <- match ip_addr args with
           | Some ips => ret ips
           | None => raise (OtherException "TypeError")
           end ;;
    ptses <- connect_ptses args callback_thread tc_db_table_name ips [] ;;
    call (btp_init E) Ev_btp_init ;;;
    call (iutctl_init E (kernel_image args) (tty_file args) (board args))
         (Ev_iutctl_init (kernel_image args) (tty_file args) (board args)) ;;;
    call (init_stack E) Ev_init_stack ;;;
    stack_inst <- call (get_stack E) Ev_get_stack ;;
    call (synch_init E stack_inst (set_pending_response callback_thread)
                     (clear_pending_responses callback_thread))
         (Ev_synch_init stack_inst (set_pending_response callback_thread)
                        (clear_pending_responses callback_thread)) ;;;
    both <- enumerate_test_cases ptses ;;
    let '(tcs, additional_test_cases) := both in
    tcs <- select_test_cases args tcs ;;
    call (run_test_cases E ptses tcs additional_test_cases (retry args))
         (Ev_run_test_cases ptses tcs additional_test_cases (retry args)) ;;;
    call (iutctl_cleanup E) Ev_iutctl_cleanup ;;;
    emit (Ev_print bye) ;;;
    emit Ev_stdout_flush ;;;
    release_ptses ptses ;;;
    os_exit 0.

(** *** The [__main__] guard (lines 194-210) *)

Definition script (s : pstate) : termination * pstate :=
  match main s with
  | (Ret _, s') => (Script_end, s')
  | (Halt c, s') => (Os_exit c, s')
  | (Raise KeyboardInterrupt, s') => (Os_exit 14, s')
  | (Raise (SystemExit a), s') => (Sys_exit a, s')
  | (Raise e, s') =>
      (Os_exit 16,
       {| ext_st := ext_st s'; log := log s' ++ [Ev_print_exc e] |})
  end.

(** A process starts with an empty trace. *)
Definition start (x : ext) : pstate := {| ext_st := x; log := [] |}.

Definition process (x : ext) : termination * pstate := script (start x).

End Client.

Arguments Env : clear implicits.
Arguments event : clear implicits.
Arguments pstate : clear implicits.
Arguments M : clear implicits.
Arguments extcall : clear implicits.

(** ** What a trace that reaches [run_test_cases] looks like *)

Section Shape.

Context {CallbackThread Pts Stack TestCase ext : Type}.
Local Abbreviation Env' := (Env CallbackThread Pts Stack TestCase ext).
Local Abbreviation event' := (event CallbackThread Pts Stack TestCase).
Local Abbreviation pstate' := (pstate CallbackThread Pts Stack TestCase ext).
Local Abbreviation M' := (M CallbackThread Pts Stack TestCase ext).
Local Abbreviation extcall' := (extcall ext).
Variable E : Env'.

(** Events of the teardown, after the run. *)
Definition after_run (ev : event') : Prop :=
  match ev with
  | Ev_iutctl_cleanup _ | Ev_print _ | Ev_stdout_flush
  | Ev_unregister _ _ | Ev_print_exc _ => True
  | _ => False
  end.

(** Lines 148-153 when every connection succeeds. *)
Definition connect_trace (args : Namespace) (cb : CallbackThread)
           (table : option string) (ips : list string) (ptses : list Pts)
  : list event' :=
  map (fun ip_pts =>
         Ev_init_pts (fst ip_pts) (workspace args) (bd_addr args)
                     (enable_max_logs args) cb table (local_addr args)
                     (Ret (snd ip_pts)))
      (combine ips ptses).

Definition table_name (args : Namespace) : option string :=
  if store args then Some ("zephyr_" ++ str (board args))%string else None.

Definition filtering (args : Namespace) : bool :=
  truthy_list (test_cases args) || truthy_list (excluded args).

(** The trace of a run from its start to the call of [run_test_cases],
    given what the collaborators returned on the way. *)
Definition trace_to_run (args : Namespace) (cb : CallbackThread) (st : Stack)
           (ips : list string) (ptses : list Pts) (p0 : Pts)
           (gap gatt sm l2cap mesh additional tcs : list TestCase)
  : list event' :=
  [Ev_parse_args (Ret args); Ev_init_core (Ret cb)]
  ++ connect_trace args cb (table_name args) ips ptses
  ++ [Ev_btp_init (Ret tt);
      Ev_iutctl_init (kernel_image args) (tty_file args) (board args) (Ret tt);
      Ev_init_stack (Ret tt);
      Ev_get_stack (Ret st);
      Ev_synch_init st (set_pending_response cb)
                    (clear_pending_responses cb) (Ret tt);
      Ev_test_cases GAP p0 (Ret gap);
      Ev_test_cases GATT p0 (Ret gatt);
      Ev_test_cases SM p0 (Ret sm);
      Ev_test_cases L2CAP p0 (Ret l2cap)]
  ++ (if 2 <=? Z.of_nat (length ptses)
      then [Ev_mesh_test_cases ptses (Ret (mesh, additional))] else [])
  ++ (if filtering args
      then [Ev_get_test_cases_subset (gap ++ gatt ++ sm ++ l2cap ++ mesh)
                                     (test_cases args) (excluded args)
                                     (Ret tcs)]
      else []).

Inductive run_shape (t : list event') (ptses : list Pts)
          (tcs additional : list TestCase) (r : Z) (ro : res unit) : Prop :=
| Run_shape (g : given) (args : Namespace) (cb : CallbackThread) (st : Stack)
            (ips : list string) (p0 : Pts)
            (gap gatt sm l2cap mesh : list TestCase) (post : list event')
    (Hroot : geteuid E <> 0)
    (Hcl : command_line_of E = CL_args g)
    (Hparse : ArgumentParser_parse_args E (CL_args g) = Ret args)
    (Hcheck : check_args E args = Ret tt)
    (Hips : ip_addr args = Some ips)
    (Hlen : length ptses = length ips)
    (Hfirst : hd_error ptses = Some p0)
    (Hretry : r = retry args)
    (Hmesh : (2 <=? Z.of_nat (length ptses)) = false ->
             mesh = [] /\ additional = [])
    (Htcs : filtering args = false ->
            tcs = gap ++ gatt ++ sm ++ l2cap ++ mesh)
    (Htrace : t = trace_to_run args cb st ips ptses p0
                               gap gatt sm l2cap mesh additional tcs
                  ++ Ev_run_test_cases ptses tcs additional r ro :: post)
    (Hpost : Forall after_run post)
    (Hstop : ro <> Ret tt ->
             forall ev, In ev post -> exists e, ev = Ev_print_exc e).

Definition init_pts_event (ev : event') : Prop :=
  match ev with Ev_init_pts _ _ _ _ _ _ _ _ => True | _ => False end.

Definition enumeration_event (ev : event') : Prop :=
  match ev with
  | Ev_test_cases _ _ _ | Ev_mesh_test_cases _ _ => True
  | _ => False
  end.

Definition no_run_event (ev : event') : Prop :=
  match ev with Ev_run_test_cases _ _ _ _ _ => False | _ => True end.

(** [emits P m]: whatever [m] does, it extends the trace, and only with
    events satisfying [P]. *)
Definition emits {A} (P : event' -> Prop) (m : M' A) : Prop :=
  forall (s s' : pstate') o,
    m s = (o, s') -> exists l, log s' = log s ++ l /\ Forall P l.

Definition trace (x : ext) : list event' := log (snd (process E x)).

Definition outcome (x : ext) : termination := fst (process E x).

(** What [check_args] rejects, read off the command line: no server
    address; a TTY that is neither under /dev/tty nor under /dev/pts; a TTY
    that does not exist; no TTY and no QEMU binary; a kernel image that is
    not a file.  A TTY is given when [-t] has a non-empty value. *)
Definition bad_configuration (g : given) : Prop :=
  truthy_list (cl_ip_addr g) = false \/
  (truthy_str (cl_tty_file g) = true /\
   String.prefix "/dev/tty" (str (cl_tty_file g)) = false /\
   String.prefix "/dev/pts" (str (cl_tty_file g)) = false) \/
  (truthy_str (cl_tty_file g) = true /\
   path_exists E (str (cl_tty_file g)) = false) \/
  (truthy_str (cl_tty_file g) = false /\
   truthy_str (find_executable E (QEMU_BIN E)) = false) \/
  path_isfile E (cl_kernel_image g) = false.


(** Every call logged in the trace returned. *)
Definition returned (ev : event') : Prop :=
  match ev with
  | Ev_parse_args (Ret _) | Ev_init_core (Ret _)
  | Ev_init_pts _ _ _ _ _ _ _ (Ret _) | Ev_btp_init (Ret _)
  | Ev_iutctl_init _ _ _ (Ret _) | Ev_init_stack (Ret _)
  | Ev_get_stack (Ret _) | Ev_synch_init _ _ _ (Ret _)
  | Ev_test_cases _ _ (Ret _) | Ev_mesh_test_cases _ (Ret _)
  | Ev_get_test_cases_subset _ _ _ (Ret _)
  | Ev_run_test_cases _ _ _ _ (Ret _) | Ev_iutctl_cleanup (Ret _)
  | Ev_print _ | Ev_stdout_flush | Ev_unregister _ (Ret _) => True
  | _ => False
  end.

(** The command line is turned down: by argparse with a usage error, or by
    [check_args]. *)
Definition rejected_arguments : Prop :=
  ArgumentParser_parse_args E (command_line_of E)
  = Raise (SystemExit (ExitInt 2)) \/
  exists args,
    ArgumentParser_parse_args E (command_line_of E) = Ret args /\
    check_args E args <> Ret tt.

(** A block that, when every call it logs returned, returns itself;
    and a block that then ends the process with [os._exit(0)]. *)
Definition steps {A} (m : M' A) : Prop :=
  forall (s s' : pstate') o,
    m s = (o, s') ->
    exists l, log s' = log s ++ l /\
              (Forall returned l -> exists a, o = Ret a).

Definition exits_with_0 {A} (m : M' A) : Prop :=
  forall (s s' : pstate') o,
    m s = (o, s') ->
    exists l, log s' = log s ++ l /\ (Forall returned l -> o = Halt 0).

(** Releasing what the run holds: the engine sessions and the IUT. *)
Definition release_event (ev : event') : Prop :=
  match ev with
  | Ev_unregister _ _ | Ev_iutctl_cleanup _ => True
  | _ => False
  end.

End Shape.

(** ** The Response Synchronizer

    The script only wires it up (lines 158-161): the callback thread of
    autoptsclient_common holds the pending responses, and its source is not
    part of the file. *)

(** Modelled from the spec: the state of the Response Synchronizer of
    autoptsclient_common (the callback thread), which is missing from the
    source: the registered expectations, the payloads handed to woken
    waiters, and the bounded buffer of unmatched events. *)
Record synchronizer := {
  pending : list (nat * (nat * string));       (* token, (session, kind) *)
  delivered : list (nat * string);              (* token, payload *)
  buffered : list ((nat * string) * string);    (* (session, kind), payload *)
  next_token : nat
}.

Definition no_pending : synchronizer :=
  {| pending := []; delivered := []; buffered := []; next_token := 0 |}.

Definition key_eqb (a b : nat * string) : bool :=
  Nat.eqb (fst a) (fst b) && String.eqb (snd a) (snd b).

Definition awaited (key : nat * string) (sy : synchronizer) : bool :=
  existsb (fun e => key_eqb key (snd e)) (pending sy).

Definition drop_token (tok : nat) (l : list (nat * (nat * string)))
  : list (nat * (nat * string)) :=
  filter (fun e => negb (Nat.eqb (fst e) tok)) l.

(** Modelled from the spec: [registerPending(sessionId, responseKind)] of
    the missing Response Synchronizer.  It records the expectation and
    returns its token, and fails ([None]) if an unmatched pending entry
    already exists for the same key. *)
Definition registerPending (session : nat) (kind : string) (sy : synchronizer)
  : option (nat * synchronizer) :=
  if awaited (session, kind) sy then None
  else Some (next_token sy,
             {| pending := (next_token sy, (session, kind)) :: pending sy;
                delivered := delivered sy;
                buffered := buffered sy;
                next_token := S (next_token sy) |}).

(** Modelled from the spec: [clearPending(token)] of the missing Response
    Synchronizer: removes the expectation unconditionally. *)
Definition clearPending (tok : nat) (sy : synchronizer) : synchronizer :=
  {| pending := drop_token tok (pending sy);
     delivered := delivered sy;
     buffered := buffered sy;
     next_token := next_token sy |}.

(** Modelled from the spec: [deliver(sessionId, responseKind, payload)] of
    the missing Response Synchronizer.  A matching pending entry is consumed
    and its waiter gets the payload; otherwise the event is buffered, the
    oldest unmatched events being dropped beyond [capacity]. *)
Definition deliver (capacity : nat) (session : nat) (kind payload : string)
           (sy : synchronizer) : synchronizer :=
  match find (fun e => key_eqb (session, kind) (snd e)) (pending sy) with
  | Some e =>
      {| pending := filter (fun e' => negb (key_eqb (session, kind) (snd e')))
                           (pending sy);
         delivered := delivered sy ++ [(fst e, payload)];
         buffered := buffered sy;
         next_token := next_token sy |}
  | None =>
      let b := buffered sy ++ [((session, kind), payload)] in
      {| pending := pending sy;
         delivered := delivered sy;
         buffered := skipn (length b - capacity) b;
         next_token := next_token sy |}
  end.

(** Modelled from the spec: [awaitResponse(token, timeout)] of the missing
    Response Synchronizer, at the moment it returns: the payload if
    [deliver] satisfied the token, else [None] for TimedOut, the token being
    cleared. *)
Definition awaitResponse (tok : nat) (sy : synchronizer)
  : option string * synchronizer :=
  match find (fun d => Nat.eqb (fst d) tok) (delivered sy) with
  | Some d =>
      (Some (snd d),
       {| pending := pending sy;
          delivered := filter (fun d => negb (Nat.eqb (fst d) tok))
                              (delivered sy);
          buffered := buffered sy;
          next_token := next_token sy |})
  | None => (None, clearPending tok sy)
  end.

(** The operations as requests, and a synchronizer serving them one after
    the other; a refused registration leaves the state as it was. *)
Inductive request :=
| Register (session : nat) (kind : string)
| Clear (tok : nat)
| Deliver (session : nat) (kind payload : string)
| Await (tok : nat).

Definition serve (capacity : nat) (sy : synchronizer) (rq : request)
  : synchronizer :=
  match rq with
  | Register session kind =>
      match registerPending session kind sy with
      | Some (_, sy') => sy'
      | None => sy
      end
  | Clear tok => clearPending tok sy
  | Deliver session kind payload => deliver capacity session kind payload sy
  | Await tok => snd (awaitResponse tok sy)
  end.

Definition serve_all (capacity : nat) (rqs : list request) (sy : synchronizer)
  : synchronizer :=
  fold_left (serve capacity) rqs sy.

(** Number of pending entries registered for a key. *)
Definition registered (key : nat * string) (sy : synchronizer) : nat :=
  length (filter (fun e => key_eqb key (snd e)) (pending sy)).

(** A request that clears or delivers the expectation [tok] for [key]. *)
Definition settles (tok : nat) (key : nat * string) (rq : request) : bool :=
  match rq with
  | Register _ _ => false
  | Clear t => Nat.eqb t tok
  | Deliver session kind _ => key_eqb (session, kind) key
  | Await t => Nat.eqb t tok
  end.

(** ** A laboratory environment

    Concrete collaborators to run the script on: the engine session of an
    address is the address, test cases are their names, and the outside
    world is the synchronizer of the callback thread. *)

Fixpoint digits (s : string) (acc : Z) : option Z :=
  match s with
  | EmptyString => Some acc
  | String c rest =>
      let n := Z.of_nat (Ascii.nat_of_ascii c) in
      if (48 <=? n) && (n <=? 57) then digits rest (10 * acc + (n - 48))
      else None
  end.

(** [int] on plain decimal literals with an optional minus sign. *)
Definition decimal (s : string) : option Z :=
  match s with
  | EmptyString => None
  | String "-"%char EmptyString => None
  | String "-"%char rest => option_map Z.opp (digits rest 0)
  | _ => digits s 0
  end.

Definition lab_given (ips : option (list string)) (tty : option string)
           (names excl : option (list string)) (retry_text : option string)
  : given :=
  {| cl_ip_addr := ips;
     cl_local_addr := None;
     cl_workspace := "zephyr-hci";
     cl_kernel_image := "zephyr.elf";
     cl_tty_file := tty;
     cl_bd_addr := None;
     cl_debug_logs := false;
     cl_board := None;
     cl_test_cases := names;
     cl_excluded := excl;
     cl_retry := retry_text;
     cl_store := false |}.

(** A name selects the test case it spells and, as a profile name, the
    test cases of the group. *)
Definition named_in (names : option (list string)) (tc : string) : bool :=
  match names with
  | Some l =>
      existsb (fun n => String.eqb tc n || String.prefix (n ++ "/") tc) l
  | None => false
  end.

Definition lab_subset (tcs : list string) (names excl : option (list string))
  : list string :=
  filter (fun tc => (negb (truthy_list names) || named_in names tc)
                    && negb (named_in excl tc)) tcs.

(** While it runs the test cases the laboratory driver awaits a response;
    when the run does not return, the expectation is still registered. *)
Definition lab_run (result : res unit) (sy : synchronizer) : res unit * synchronizer :=
  match result with
  | Ret _ => (result, sy)
  | _ => (result, serve 8 sy (Register 0 "passkey"))
  end.

Definition lab (cl : command_line) (euid : Z) (run_result : res unit)
  : Env unit string unit string synchronizer :=
  {| command_line_of := cl;
     geteuid := euid;
     path_exists := fun p => String.eqb p "/dev/ttyUSB0" || String.eqb p "zephyr.elf";
     path_isfile := fun p => String.eqb p "zephyr.elf";
     find_executable := fun b => Some ("/usr/bin/" ++ b)%string;
     repr := fun t => ("'" ++ t ++ "'")%string;
     py_int := decimal;
     QEMU_BIN := "qemu-system-arm";
     board_names := ["arduino_101"; "nrf52"]%string;
     init_core := fun sy => (Ret tt, sy);
     init_pts := fun ip _ _ _ _ _ _ sy => (Ret ip, sy);
     get_test_cases_subset :=
       fun tcs names excl sy => (Ret (lab_subset tcs names excl), sy);
     run_test_cases := fun _ _ _ _ => lab_run run_result;
     unregister_xmlrpc_ptscallback := fun _ sy => (Ret tt, sy);
     btp_init := fun sy => (Ret tt, sy);
     iutctl_init := fun _ _ _ sy => (Ret tt, sy);
     iutctl_cleanup := fun sy => (Ret tt, sy);
     init_stack := fun sy => (Ret tt, sy);
     get_stack := fun sy => (Ret tt, sy);
     synch_init := fun _ _ _ sy => (Ret tt, sy);
     gap_test_cases := fun _ sy => (Ret ["GAP/A"; "GAP/B"]%string, sy);
     gatt_test_cases := fun _ sy => (Ret ["GATT/A"]%string, sy);
     sm_test_cases := fun _ sy => (Ret ["SM/A"]%string, sy);
     l2cap_test_cases := fun _ sy => (Ret ["L2CAP/A"]%string, sy);
     mesh_test_cases :=
       fun _ sy => (Ret (["MESH/A"]%string, ["MESH/EXTRA"]%string), sy) |}.

(** Two engines, one engine, and one engine with a negative retry count. *)
Definition two_engines : command_line :=
  CL_args (lab_given (Some ["192.168.0.2"; "192.168.0.3"]%string) None
                     (Some ["GAP"; "MESH/A"]%string) (Some ["GAP/B"]%string)
                     (Some "2"%string)).

Definition one_engine : command_line :=
  CL_args (lab_given (Some ["192.168.0.2"]%string) None None None None).


Definition no_address : command_line :=
  CL_args (lab_given None None None None None).

(** ** Conduct of the blocks of the script

    Notions for what the script does around a failing call, and for the
    traces of the setup and of the teardown. *)

(** [args] with another [tty_file]. *)
Definition with_tty (tty : option string) (args : Namespace) : Namespace :=
  {| ip_addr := ip_addr args;
     local_addr := local_addr args;
     workspace := workspace args;
     kernel_image := kernel_image args;
     tty_file := tty;
     bd_addr := bd_addr args;
     enable_max_logs := enable_max_logs args;
     board := board args;
     test_cases := test_cases args;
     excluded := excluded args;
     retry := retry args;
     store := store args |}.

(** The laboratory without QEMU installed. *)
Definition lab_without_qemu (cl : command_line)
  : Env unit string unit string synchronizer :=
  let E := lab cl 1000 (Ret tt) in
  {| command_line_of := cl;
     geteuid := geteuid E;
     path_exists := path_exists E;
     path_isfile := path_isfile E;
     find_executable := fun _ => None;
     repr := repr E;
     py_int := py_int E;
     QEMU_BIN := "";
     board_names := board_names E;
     init_core := init_core E;
     init_pts := init_pts E;
     get_test_cases_subset := get_test_cases_subset E;
     run_test_cases := run_test_cases E;
     unregister_xmlrpc_ptscallback := unregister_xmlrpc_ptscallback E;
     btp_init := btp_init E;
     iutctl_init := iutctl_init E;
     iutctl_cleanup := iutctl_cleanup E;
     init_stack := init_stack E;
     get_stack := get_stack E;
     synch_init := synch_init E;
     gap_test_cases := gap_test_cases E;
     gatt_test_cases := gatt_test_cases E;
     sm_test_cases := sm_test_cases E;
     l2cap_test_cases := l2cap_test_cases E;
     mesh_test_cases := mesh_test_cases E |}.

(** Command lines for a board over a serial line, for a board the project
    does not know, and for a retry count that is not a number. *)
Definition over_tty : given :=
  lab_given (Some ["192.168.0.2"]%string) (Some "/dev/ttyUSB0"%string)
            None None None.

Definition unknown_board : given :=
  {| cl_ip_addr := Some ["192.168.0.2"]%string;
     cl_local_addr := None;
     cl_workspace := "zephyr-hci";
     cl_kernel_image := "zephyr.elf";
     cl_tty_file := None;
     cl_bd_addr := None;
     cl_debug_logs := false;
     cl_board := Some "frdm_k64f"%string;
     cl_test_cases := None;
     cl_excluded := None;
     cl_retry := None;
     cl_store := false |}.


(** One engine and an empty [-t] value. *)
Definition empty_tty : given :=
  lab_given (Some ["192.168.0.2"]%string) (Some EmptyString) None None None.

(** The configurations [check_args] is expected to refuse when every value
    of [-t], the empty one included, counts as a TTY path: no server
    address; a TTY path that is neither under /dev/tty nor under /dev/pts; a
    TTY path that does not exist; no [-t] and no QEMU binary; a kernel image
    that is not a file. *)
Definition listed_configuration
           {CallbackThread Pts Stack TestCase ext : Type}
           (E : Env CallbackThread Pts Stack TestCase ext) (g : given)
  : Prop :=
  truthy_list (cl_ip_addr g) = false \/
  (exists tty, cl_tty_file g = Some tty /\
               String.prefix "/dev/tty" tty = false /\
               String.prefix "/dev/pts" tty = false) \/
  (exists tty, cl_tty_file g = Some tty /\ path_exists E tty = false) \/
  (cl_tty_file g = None /\
   truthy_str (find_executable E (QEMU_BIN E)) = false) \/
  path_isfile E (cl_kernel_image g) = false.


Section Conduct.

Context {CallbackThread Pts Stack TestCase ext : Type}.
Local Abbreviation event' := (event CallbackThread Pts Stack TestCase).
Local Abbreviation pstate' := (pstate CallbackThread Pts Stack TestCase ext).
Local Abbreviation M' := (M CallbackThread Pts Stack TestCase ext).

(** Anything the script logs before the guard steps in. *)
Definition main_event (ev : event') : Prop :=
  match ev with Ev_print_exc _ => False | _ => True end.





(** A block after whose first failing call nothing more is called. *)
Definition fail_stop {A} (m : M' A) : Prop :=
  forall (s s' : pstate') o,
    m s = (o, s') ->
    exists l, log s' = log s ++ l /\
              Forall returned (removelast l) /\
              ((exists a, o = Ret a) -> Forall returned l).



(** A block that never hands over to the statement after it. *)
Definition never_returns {A} (m : M' A) : Prop :=
  forall (s s' : pstate') a, m s <> (Ret a, s').



End Conduct.

(** * Properties of the script *)

Section Facts.

Context {CallbackThread Pts Stack TestCase ext : Type}.
Local Abbreviation Env' := (Env CallbackThread Pts Stack TestCase ext).
Local Abbreviation event' := (event CallbackThread Pts Stack TestCase).
Local Abbreviation pstate' := (pstate CallbackThread Pts Stack TestCase ext).
Local Abbreviation M' := (M CallbackThread Pts Stack TestCase ext).
Local Abbreviation extcall' := (extcall ext).
Variable E : Env'.

Local Notation "x <- m ;; k" := (bind m (fun x => k))
  (at level 61, m at next level, right associativity).

(** *** Stepping through the monad *)

Lemma bind_inv {A B} (m : M' A) (k : A -> M' B) (s s' : pstate') (o : res B) :
  bind m k s = (o, s') ->
  (exists a sm, m s = (Ret a, sm) /\ k a sm = (o, s')) \/
  (exists e, m s = (Raise e, s') /\ o = Raise e) \/
  (exists c, m s = (Halt c, s') /\ o = Halt c).
Proof.
  unfold bind. destruct (m s) as [[a | e | c] sm]; intros H.
  - left. eauto.
  - right. left. inversion H. eauto.
  - right. right. inversion H. eauto.
Qed.

Lemma call_inv {A} (f : extcall' A) (ev : res A -> event') (s s' : pstate')
      (o : res A) :
  call f ev s = (o, s') ->
  exists x, f (ext_st s) = (o, x) /\
            s' = {| ext_st := x; log := log s ++ [ev o] |}.
Proof.
  unfold call. destruct (f (ext_st s)) as [o' x]. intros H. inversion H. eauto.
Qed.

Lemma call_log {A} (f : extcall' A) (ev : res A -> event') (s s' : pstate')
      (o : res A) :
  call f ev s = (o, s') -> log s' = log s ++ [ev o].
Proof.
  intros H. apply call_inv in H. destruct H as (x & _ & ->). reflexivity.
Qed.

(** *** Blocks that only leave events of one kind *)

Lemma emits_silent {A} (P : event' -> Prop) (o : res A) :
  emits P (fun s : pstate' => (o, s)).
Proof.
  intros s s' o' H. inversion H; subst. exists []. now rewrite app_nil_r.
Qed.

Lemma emits_bind {A B} (P : event' -> Prop) (m : M' A) (k : A -> M' B) :
  emits P m -> (forall a, emits P (k a)) -> emits P (bind m k).
Proof.
  intros Hm Hk s s' o H. apply bind_inv in H.
  destruct H as [(a & sm & Ha & H) | [(e & Ha & _) | (c & Ha & _)]].
  - apply Hm in Ha. apply Hk in H.
    destruct Ha as (l1 & E1 & F1), H as (l2 & E2 & F2).
    exists (l1 ++ l2). rewrite E2, E1, app_assoc. split; [reflexivity |].
    apply Forall_app. auto.
  - eapply Hm; eauto.
  - eapply Hm; eauto.
Qed.

Lemma emits_call {A} (P : event' -> Prop) (f : extcall' A) ev :
  (forall o, P (ev o)) -> emits P (call f ev).
Proof.
  intros HP s s' o H. apply call_log in H. exists [ev o]. split; auto.
Qed.

Lemma emits_lift {A} (P : event' -> Prop) (r : res A) ev :
  P (ev r) -> emits P (lift r ev : M' A).
Proof.
  intros HP s s' o H. inversion H; subst. exists [ev o]. split; auto.
Qed.

Lemma emits_emit (P : event' -> Prop) ev :
  P ev -> emits P (emit ev : M' unit).
Proof.
  intros HP s s' o H. inversion H; subst. exists [ev]. split; auto.
Qed.

Lemma emits_weaken {A} (P Q : event' -> Prop) (m : M' A) :
  (forall ev, P ev -> Q ev) -> emits P m -> emits Q m.
Proof.
  intros HPQ Hm s s' o H. apply Hm in H. destruct H as (l & El & Fl).
  exists l. split; [exact El |]. eapply Forall_impl; eauto.
Qed.

(** *** The two loops *)

Lemma connect_ptses_ok args cb table ips :
  forall acc (s s' : pstate') ptses,
    connect_ptses E args cb table ips acc s = (Ret ptses, s') ->
    exists new, ptses = acc ++ new /\ length new = length ips /\
                log s' = log s ++ connect_trace args cb table ips new.
Proof.
  induction ips as [| ip rest IH]; intros acc s s' ptses H; simpl in H.
  - inversion H; subst. exists []. rewrite app_nil_r. simpl.
    rewrite app_nil_r. auto.
  - apply bind_inv in H.
    destruct H as [(p & sm & Hc & Hk) | [(e & _ & He) | (c & _ & He)]];
      try discriminate.
    apply call_log in Hc. apply IH in Hk.
    destruct Hk as (new & -> & Hlen & Hlog).
    exists (p :: new). rewrite <- app_assoc. simpl. repeat split.
    + now rewrite Hlen.
    + rewrite Hlog, Hc, <- app_assoc. reflexivity.
Qed.

Lemma connect_ptses_emits args cb table ips :
  forall acc, emits init_pts_event (connect_ptses E args cb table ips acc).
Proof.
  induction ips as [| ip rest IH]; intros acc; simpl.
  - apply emits_silent.
  - apply emits_bind; [apply emits_call; intros; exact I | intros; apply IH].
Qed.

Lemma release_ptses_emits ptses : emits after_run (release_ptses E ptses).
Proof.
  induction ptses as [| p rest IH]; simpl.
  - apply emits_silent.
  - apply emits_bind; [apply emits_call; intros; exact I | intros; apply IH].
Qed.

(** *** The blocks of [main] *)

Lemma parse_args_inv (s s' : pstate') o :
  parse_args E s = (o, s') ->
  ext_st s' = ext_st s /\
  log s' = log s ++
           [Ev_parse_args (ArgumentParser_parse_args E (command_line_of E))] /\
  forall args, o = Ret args ->
               ArgumentParser_parse_args E (command_line_of E) = Ret args /\
               check_args E args = Ret tt.
Proof.
  unfold parse_args, bind, lift.
  destruct (ArgumentParser_parse_args E (command_line_of E)) as [a | e | c];
    simpl; [destruct (check_args E a) as [[] | e | c] eqn:Hc |..];
    intros H; inversion H; subst; simpl;
    (split; [reflexivity | split; [reflexivity |]]);
    intros args' Ha; inversion Ha; subst; auto.
Qed.

Lemma enumerate_test_cases_ok ptses (s s' : pstate') tcs additional :
  enumerate_test_cases E ptses s = (Ret (tcs, additional), s') ->
  exists p0 gap gatt sm l2cap mesh,
    hd_error ptses = Some p0 /\
    tcs = gap ++ gatt ++ sm ++ l2cap ++ mesh /\
    ((2 <=? Z.of_nat (length ptses)) = false -> mesh = [] /\ additional = []) /\
    log s' = log s ++
             [Ev_test_cases GAP p0 (Ret gap); Ev_test_cases GATT p0 (Ret gatt);
              Ev_test_cases SM p0 (Ret sm); Ev_test_cases L2CAP p0 (Ret l2cap)]
             ++ (if 2 <=? Z.of_nat (length ptses)
                 then [Ev_mesh_test_cases ptses (Ret (mesh, additional))]
                 else []).
Proof.
  unfold enumerate_test_cases. destruct ptses as [| p0 rest].
  - discriminate.
  - cbn [first_pts]. intros H.
    repeat match type of H with
           | bind (ret _) _ _ = _ => unfold bind at 1, ret at 1 in H
           | bind (call _ _) _ _ = _ =>
               let Hc := fresh "Hc" in
               apply bind_inv in H;
               destruct H as [(? & ? & Hc & H) | [(? & _ & ?) | (? & _ & ?)]];
               try discriminate; apply call_log in Hc
           end.
    exists p0. destruct (2 <=? Z.of_nat (length (p0 :: rest))) eqn:Hlen.
    + apply bind_inv in H.
      destruct H as [([m a] & ? & Hm & H) | [(? & _ & ?) | (? & _ & ?)]];
        try discriminate.
      apply call_log in Hm. inversion H; subst.
      exists x, x1, x3, x5, m. split; [reflexivity |]. split.
      * repeat rewrite <- app_assoc. reflexivity.
      * split; [discriminate |].
        rewrite Hm, Hc2, Hc1, Hc0, Hc. repeat rewrite <- app_assoc.
        reflexivity.
    + inversion H; subst.
      exists x, x1, x3, x5, []. split; [reflexivity |]. split.
      * repeat rewrite <- app_assoc. now rewrite app_nil_r.
      * split; [auto |].
        rewrite Hc2, Hc1, Hc0, Hc. repeat rewrite <- app_assoc.
        now rewrite app_nil_r.
Qed.

Lemma enumerate_test_cases_emits ptses :
  emits enumeration_event (enumerate_test_cases E ptses).
Proof.
  unfold enumerate_test_cases, first_pts.
  destruct ptses as [| p0 rest];
    repeat (apply emits_bind;
            [first [apply emits_silent | apply emits_call; now intros]
            | intros]);
    (destruct (2 <=? _);
     [ apply emits_bind; [apply emits_call; now intros |];
       intros [? ?]; apply emits_silent
     | apply emits_silent ]).
Qed.

Lemma select_test_cases_inv args tcs (s s' : pstate') o :
  select_test_cases E args tcs s = (o, s') ->
  log s' = log s ++
           (if filtering args
            then [Ev_get_test_cases_subset tcs (test_cases args)
                                           (excluded args) o]
            else []) /\
  (filtering args = false -> o = Ret tcs).
Proof.
  unfold select_test_cases, filtering.
  destruct (truthy_list (test_cases args) || truthy_list (excluded args)).
  - intros H. apply call_log in H. split; [exact H | discriminate].
  - intros H. inversion H; subst. now rewrite app_nil_r.
Qed.

(** *** The teardown (lines 182-191) *)

Lemma steps_bind {A B} (m : M' A) (k : A -> M' B) :
  steps m -> (forall a, steps (k a)) -> steps (bind m k).
Proof.
  intros Hm Hk s s' o H. apply bind_inv in H.
  destruct H as [(a & sm & Ha & H) | [(e & Ha & ->) | (c & Ha & ->)]].
  - apply Hm in Ha. apply Hk in H.
    destruct Ha as (l1 & E1 & F1), H as (l2 & E2 & F2).
    exists (l1 ++ l2). rewrite E2, E1, app_assoc. split; [reflexivity |].
    intros HF. apply Forall_app in HF. tauto.
  - apply Hm in Ha. destruct Ha as (l & El & Fl). exists l.
    split; [exact El |]. intros HF. destruct (Fl HF). discriminate.
  - apply Hm in Ha. destruct Ha as (l & El & Fl). exists l.
    split; [exact El |]. intros HF. destruct (Fl HF). discriminate.
Qed.

Lemma steps_then_exit {A B} (m : M' A) (k : A -> M' B) :
  steps m -> (forall a, exits_with_0 (k a)) -> exits_with_0 (bind m k).
Proof.
  intros Hm Hk s s' o H. apply bind_inv in H.
  destruct H as [(a & sm & Ha & H) | [(e & Ha & ->) | (c & Ha & ->)]].
  - apply Hm in Ha. apply Hk in H.
    destruct Ha as (l1 & E1 & F1), H as (l2 & E2 & F2).
    exists (l1 ++ l2). rewrite E2, E1, app_assoc. split; [reflexivity |].
    intros HF. apply Forall_app in HF. tauto.
  - apply Hm in Ha. destruct Ha as (l & El & Fl). exists l.
    split; [exact El |]. intros HF. destruct (Fl HF). discriminate.
  - apply Hm in Ha. destruct Ha as (l & El & Fl). exists l.
    split; [exact El |]. intros HF. destruct (Fl HF). discriminate.
Qed.

Lemma steps_call {A} (f : extcall' A) (ev : res A -> event') :
  (forall o, returned (ev o) -> exists a, o = Ret a) -> steps (call f ev).
Proof.
  intros Hev s s' o H. apply call_log in H. exists [ev o].
  split; [exact H |]. intros HF. inversion HF; subst. auto.
Qed.

Lemma steps_emit ev : steps (emit ev : M' unit).
Proof.
  intros s s' o H. inversion H; subst. exists [ev]. split; [reflexivity |].
  eauto.
Qed.

Lemma release_ptses_steps ptses : steps (release_ptses E ptses).
Proof.
  induction ptses as [| p rest IH]; simpl.
  - intros s s' o H. inversion H; subst. exists [].
    rewrite app_nil_r. eauto.
  - apply steps_bind; [| intros; exact IH].
    apply steps_call. intros [[] | |]; simpl; intros Hr; [eauto | |];
      destruct Hr.
Qed.

Lemma teardown_emits ptses :
  emits after_run
        (bind (call (iutctl_cleanup E) Ev_iutctl_cleanup) (fun _ =>
         bind (emit (Ev_print bye)) (fun _ =>
         bind (emit Ev_stdout_flush) (fun _ =>
         bind (release_ptses E ptses) (fun _ =>
         @os_exit CallbackThread Pts Stack TestCase ext unit 0))))).
Proof.
  repeat (apply emits_bind; [| intros]);
    first [ apply emits_call; now intros | apply emits_emit; exact I
          | apply release_ptses_emits | apply emits_silent ].
Qed.

Lemma teardown_exits ptses :
  exits_with_0
        (bind (call (iutctl_cleanup E) Ev_iutctl_cleanup) (fun _ =>
         bind (emit (Ev_print bye)) (fun _ =>
         bind (emit Ev_stdout_flush) (fun _ =>
         bind (release_ptses E ptses) (fun _ =>
         @os_exit CallbackThread Pts Stack TestCase ext unit 0))))).
Proof.
  apply steps_then_exit;
    [apply steps_call; intros [[] | |]; simpl; intros Hr; [eauto | |];
     destruct Hr | intros _].
  apply steps_then_exit; [apply steps_emit | intros _].
  apply steps_then_exit; [apply steps_emit | intros _].
  apply steps_then_exit; [apply release_ptses_steps | intros _].
  intros s s' o H. inversion H; subst. exists []. rewrite app_nil_r. auto.
Qed.

(** *** The whole of [main] *)

Lemma no_run_in (l : list event') ps tcs adds r ro :
  Forall no_run_event l -> ~ In (Ev_run_test_cases ps tcs adds r ro) l.
Proof.
  intros HF Hin. rewrite Forall_forall in HF. exact (HF _ Hin).
Qed.

Lemma after_run_in (l : list event') ps tcs adds r ro :
  Forall after_run l -> ~ In (Ev_run_test_cases ps tcs adds r ro) l.
Proof.
  intros HF Hin. rewrite Forall_forall in HF. exact (HF _ Hin).
Qed.

Lemma connect_trace_no_run args cb table ips ptses :
  Forall no_run_event (connect_trace args cb table ips ptses : list event').
Proof.
  unfold connect_trace. apply Forall_forall. intros ev Hin.
  apply in_map_iff in Hin. destruct Hin as (x & <- & _). exact I.
Qed.

Lemma trace_to_run_no_run args (cb : CallbackThread) (st : Stack) ips
      (ptses : list Pts) p0 (gap gatt sm l2cap mesh additional tcs
                             : list TestCase) :
  Forall no_run_event
         (trace_to_run args cb st ips ptses p0 gap gatt sm l2cap mesh
                       additional tcs).
Proof.
  unfold trace_to_run.
  repeat (apply Forall_app; split);
    try apply connect_trace_no_run;
    try (destruct (2 <=? _)); try (destruct (filtering _));
    repeat constructor.
Qed.

Ltac stuck Hin :=
  exfalso;
  repeat match goal with
         | Hl : log _ = _ |- _ => rewrite Hl in Hin; clear Hl
         end;
  repeat match type of Hin with
         | context [if ?b then _ else _] => destruct b
         end;
  repeat match type of Hin with
         | In _ (_ ++ _) => apply in_app_or in Hin; destruct Hin as [Hin | Hin]
         end;
  solve [ simpl in Hin; intuition discriminate
        | eapply no_run_in; [apply connect_trace_no_run | exact Hin]
        | match goal with
          | HF : Forall _ ?l |- _ =>
              match type of Hin with
              | In _ l => rewrite Forall_forall in HF; exact (HF _ Hin)
              end
          end ].

Lemma main_run_shape (s0 s1 : pstate') o ps tcs adds r ro :
  log s0 = [] ->
  main E s0 = (o, s1) ->
  In (Ev_run_test_cases ps tcs adds r ro) (log s1) ->
  run_shape E (log s1) ps tcs adds r ro /\
  (Forall returned (log s1) -> o = Halt 0).
Proof.
  intros H0 H Hin. unfold main in H.
  destruct (geteuid E =? 0) eqn:Heuid.
  { inversion H; subst. rewrite H0 in Hin. destruct Hin. }
  apply bind_inv in H.
  destruct H as [(args & sa & Ha & H) | [(? & Ha & _) | (? & Ha & _)]];
    apply parse_args_inv in Ha; destruct Ha as (_ & La & Ha);
    try solve [stuck Hin].
  destruct (Ha _ eq_refl) as [Hparse Hcheck]. rewrite Hparse in La. clear Ha.
  apply bind_inv in H.
  destruct H as [(cb & sb & Hb & H) | [(? & Hb & _) | (? & Hb & _)]];
    apply call_log in Hb; try solve [stuck Hin].
  destruct (ip_addr args) as [ips |] eqn:Hips;
    [| apply bind_inv in H;
       destruct H as [(? & ? & Hx & _) | [(? & Hx & _) | (? & Hx & _)]];
       inversion Hx; subst; stuck Hin].
  unfold bind at 1, ret at 1 in H.
  fold (table_name args) in H.
  apply bind_inv in H.
  destruct H as [(ptses & sc & Hc & H) | [(? & Hc & _) | (? & Hc & _)]];
    try solve [apply connect_ptses_emits in Hc; destruct Hc as (? & Hc & ?);
               stuck Hin].
  apply connect_ptses_ok in Hc. destruct Hc as (new & Hnew & Hlen & Lc).
  simpl in Hnew. subst new.
  apply bind_inv in H.
  destruct H as [([] & s5 & L5 & H) | [(? & L5 & _) | (? & L5 & _)]];
    apply call_log in L5; try solve [stuck Hin].
  apply bind_inv in H.
  destruct H as [([] & s6 & L6 & H) | [(? & L6 & _) | (? & L6 & _)]];
    apply call_log in L6; try solve [stuck Hin].
  apply bind_inv in H.
  destruct H as [([] & s7 & L7 & H) | [(? & L7 & _) | (? & L7 & _)]];
    apply call_log in L7; try solve [stuck Hin].
  apply bind_inv in H.
  destruct H as [(st & s8 & L8 & H) | [(? & L8 & _) | (? & L8 & _)]];
    apply call_log in L8; try solve [stuck Hin].
  apply bind_inv in H.
  destruct H as [([] & s9 & L9 & H) | [(? & L9 & _) | (? & L9 & _)]];
    apply call_log in L9; try solve [stuck Hin].
  apply bind_inv in H.
  destruct H as [([enum adds'] & se & He & H) | [(? & He & _) | (? & He & _)]];
    try solve [apply enumerate_test_cases_emits in He;
               destruct He as (? & He & HF);
               apply (Forall_impl no_run_event) in HF;
               [stuck Hin | intros [] ; simpl; tauto]].
  apply enumerate_test_cases_ok in He.
  destruct He as (p0 & gap & gatt & sm & l2cap & mesh & Hfirst & Henum
                  & Hmesh & Le).
  apply bind_inv in H.
  destruct H as [(tcs' & sf & Hf & H) | [(? & Hf & _) | (? & Hf & _)]];
    apply select_test_cases_inv in Hf; destruct Hf as (Lf & Hf);
    try solve [stuck Hin].
  assert (Hrun : exists ro' post,
             log s1 = log sf ++
                      Ev_run_test_cases ptses tcs' adds' (retry args) ro'
                      :: post /\ Forall after_run post /\
             (ro' <> Ret tt -> post = []) /\
             (ro' = Ret tt -> Forall returned post -> o = Halt 0)).
  { apply bind_inv in H.
    destruct H as [([] & sr & Lr & H) | [(? & Lr & _) | (? & Lr & _)]];
      apply call_log in Lr;
      try solve [eexists; exists []; split;
                 [exact Lr | repeat split; auto; discriminate]].
    destruct (teardown_emits _ _ _ _ H) as (post & Lp & HF).
    destruct (teardown_exits _ _ _ _ H) as (post' & Lp' & HX).
    rewrite Lp in Lp'. apply app_inv_head in Lp'. subst post'.
    exists (Ret tt), post.
    rewrite Lp, Lr, <- app_assoc. repeat split; auto. congruence. }
  destruct Hrun as (ro' & post & L1 & Hpost & Hstop & Hdone).
  assert (Ht : log s1 =
               trace_to_run args cb st ips ptses p0 gap gatt sm l2cap mesh
                            adds' tcs'
               ++ Ev_run_test_cases ptses tcs' adds' (retry args) ro' :: post).
  { rewrite L1, Lf, Le, L9, L8, L7, L6, L5, Lc, Hb, La, H0, Henum.
    unfold trace_to_run. repeat rewrite <- app_assoc. reflexivity. }
  rewrite Ht in Hin. apply in_app_or in Hin. destruct Hin as [Hin | Hin].
  { exfalso. eapply no_run_in; [apply trace_to_run_no_run | exact Hin]. }
  destruct Hin as [Heq | Hin];
    [| exfalso; eapply after_run_in; [exact Hpost | exact Hin]].
  inversion Heq; subst. rewrite Ht.
  destruct (command_line_of E) as [| | g] eqn:Hcl; try discriminate.
  apply Z.eqb_neq in Heuid. split.
  - apply (Run_shape E _ _ _ _ _ _ g args cb st ips p0 gap gatt sm l2cap mesh
                     post); auto.
    + intros Hno. apply Hf in Hno. now inversion Hno.
    + intros Hne ev Hev. rewrite (Hstop Hne) in Hev. destruct Hev.
  - intros HF. apply Forall_app in HF. destruct HF as [_ HF].
    inversion HF as [| ? ? Hr HF']; subst.
    destruct ro as [[] | |]; try destruct Hr. auto.
Qed.


(** *** Reading a trace that reached the run *)

Lemma parsed_fields g args :
  ArgumentParser_parse_args E (CL_args g) = Ret args ->
  ip_addr args = cl_ip_addr g /\ tty_file args = cl_tty_file g /\
  kernel_image args = cl_kernel_image g /\
  test_cases args = cl_test_cases g /\ excluded args = cl_excluded g /\
  match cl_retry g with
  | None => retry args = 0
  | Some text => py_int E text = Some (retry args)
  end.
Proof.
  unfold ArgumentParser_parse_args.
  destruct (cl_retry g) as [text |];
    [destruct (py_int E text) as [n |] eqn:Hint; [| discriminate] |];
    (destruct (match cl_board g with
               | Some b => existsb (String.eqb b) (board_names E)
               | None => true
               end); [| discriminate]);
    intros H; inversion H; subst; simpl; auto 10.
Qed.


Lemma process_completion x ps tcs adds r ro :
  In (Ev_run_test_cases ps tcs adds r ro) (trace E x) ->
  Forall returned (trace E x) ->
  outcome E x = Os_exit 0.
Proof.
  unfold trace, outcome, process, script.
  destruct (main E (start x)) as [[u | e | c] s'] eqn:Hm;
    [| destruct e |]; simpl; intros Hin HF;
    try (assert (Hc := proj2 (main_run_shape (start x) _ _ _ _ _ _ _
                                             eq_refl Hm Hin) HF);
         inversion Hc; reflexivity).
  apply Forall_app in HF. destruct HF as [_ HF].
  inversion HF as [| ? ? Hr _]. destruct Hr.
Qed.


Lemma trace_to_run_holds args (cb : CallbackThread) (st : Stack) ips
      (ptses : list Pts) p0 (gap gatt sm l2cap mesh additional tcs
                             : list TestCase) (ev : event') :
  In ev (trace_to_run args cb st ips ptses p0 gap gatt sm l2cap mesh
                      additional tcs) ->
  ~ release_event ev.
Proof.
  intros Hin. unfold trace_to_run in Hin.
  repeat (apply in_app_or in Hin; destruct Hin as [Hin | Hin]).
  - simpl in Hin. intuition (subst; auto).
  - unfold connect_trace in Hin. apply in_map_iff in Hin.
    destruct Hin as (y & <- & _). auto.
  - simpl in Hin. intuition (subst; auto).
  - destruct (2 <=? Z.of_nat (length ptses));
      [destruct Hin as [<- | []] | destruct Hin]. auto.
  - destruct (filtering args); [destruct Hin as [<- | []] | destruct Hin].
    auto.
Qed.

(** *** Validation *)

Lemma argparse_outcome cl :
  match ArgumentParser_parse_args E cl with
  | Ret _ => True
  | Raise e => e = SystemExit (ExitInt 0) \/ e = SystemExit (ExitInt 2)
  | Halt _ => False
  end.
Proof.
  destruct cl as [| | g]; simpl; auto.
  destruct (match cl_retry g with
            | Some text => py_int E text
            | None => Some 0
            end); simpl; auto.
  destruct (match cl_board g with
            | Some b => existsb (String.eqb b) (board_names E)
            | None => true
            end); simpl; auto.
Qed.

Lemma check_args_outcome args :
  check_args E args = Ret tt \/
  exists msg, check_args E args = Raise (SystemExit (ExitStr msg)).
Proof.
  unfold check_args, sys_exit.
  repeat match goal with
         | |- context [if ?b then _ else _] => destruct b; simpl
         end; eauto.
Qed.

Lemma check_args_rejects g args :
  ArgumentParser_parse_args E (CL_args g) = Ret args ->
  bad_configuration E g ->
  exists msg, check_args E args = Raise (SystemExit (ExitStr msg)).
Proof.
  intros Hparse Hbad.
  destruct (parsed_fields _ _ Hparse) as (Hip & Htty & Hker & _).
  destruct (check_args_outcome args) as [Hok | Hno]; [exfalso | exact Hno].
  revert Hok. unfold check_args, sys_exit. rewrite Hip, Htty, Hker.
  destruct Hbad as [H | [(H1 & H2 & H3) | [(H1 & H2) | [(H1 & H2) | H]]]].
  - rewrite H. discriminate.
  - rewrite H1, H2, H3. destruct (truthy_list (cl_ip_addr g)); discriminate.
  - rewrite H1, H2.
    destruct (truthy_list (cl_ip_addr g)); [| discriminate]. simpl.
    destruct (negb (String.prefix "/dev/tty" (str (cl_tty_file g)))
              && negb (String.prefix "/dev/pts" (str (cl_tty_file g))));
      discriminate.
  - rewrite H1, H2. destruct (truthy_list (cl_ip_addr g)); discriminate.
  - rewrite H.
    repeat match goal with
           | |- context [if ?b then _ else _] => destruct b; simpl
           end; discriminate.
Qed.

Lemma main_as_root (s : pstate') :
  geteuid E = 0 ->
  main E s = (Raise (SystemExit
                       (ExitStr "Please do not run this program as root.")),
              s).
Proof.
  intros H. unfold main. rewrite H. reflexivity.
Qed.

Lemma main_rejected (s : pstate') e :
  geteuid E <> 0 ->
  (ArgumentParser_parse_args E (command_line_of E) = Raise e \/
   exists args,
     ArgumentParser_parse_args E (command_line_of E) = Ret args /\
     check_args E args = Raise e) ->
  main E s =
  (Raise e,
   {| ext_st := ext_st s;
      log := log s ++ [Ev_parse_args
                         (ArgumentParser_parse_args E (command_line_of E))] |}).
Proof.
  intros Hroot H. unfold main. apply Z.eqb_neq in Hroot. rewrite Hroot.
  unfold bind at 1, parse_args, bind, lift.
  destruct H as [H | (args & H & Hc)]; rewrite H; [reflexivity |].
  rewrite Hc. reflexivity.
Qed.

End Facts.

(** * The claims *)












(** C10.  Started with effective UID 0, the script exits with the message
    asking not to run as root: nothing is parsed, no collaborator is called,
    the outside world is untouched, and the exit status is 1. *)
Theorem root_is_refused
        {CallbackThread Pts Stack TestCase ext : Type}
        (E : Env CallbackThread Pts Stack TestCase ext) x :
  geteuid E = 0 ->
  outcome E x = Sys_exit (ExitStr "Please do not run this program as root.") /\
  exit_status (outcome E x) = 1 /\
  trace E x = [] /\
  ext_st (snd (process E x)) = x.
Proof.
  intros H. unfold outcome, trace, process, script.
  rewrite (main_as_root E _ H). simpl. auto.
Qed.

Lemma root_is_refused_witness :
  let E := lab two_engines 0 (Ret tt) in
  geteuid E = 0 /\
  outcome E no_pending
  = Sys_exit (ExitStr "Please do not run this program as root.") /\
  exit_status (outcome E no_pending) = 1 /\
  trace E no_pending = [] /\
  ext_st (snd (process E no_pending)) = no_pending.
Proof.
  intros E. split; [reflexivity |].
  exact (root_is_refused E no_pending eq_refl).
Defined.

(** C4, as stated, fails: [-t ""] is a TTY path that is not under /dev/tty
    or /dev/pts and does not exist, yet [check_args] takes it for no TTY at
    all; with QEMU installed the validation passes and the engines are
    contacted. *)
Lemma empty_tty_reaches_the_engines :
  let E := lab (CL_args empty_tty) 1000 (Ret tt) in
  ~ (forall g,
        command_line_of E = CL_args g ->
        listed_configuration E g ->
        exists a,
          outcome E no_pending = Sys_exit a /\
          forall ev, In ev (trace E no_pending) ->
                     exists o, ev = Ev_parse_args o).
Proof.
  intros E H.
  destruct (H empty_tty eq_refl) as (a & Hout & _).
  - right. left. exists EmptyString. repeat split.
  - vm_compute in Hout. discriminate Hout.
Qed.

(** C4, amended.  A command line without server address, with a non-empty
    TTY outside /dev/tty and /dev/pts, with a non-empty TTY that does not
    exist, without TTY (or with an empty one) when QEMU is not installed, or
    with a kernel image that is not a file, ends the process through
    [SystemExit] with a non-zero status; the trace holds at most the parsing
    of the arguments, so no engine session was initiated, and the outside
    world is untouched.  Unless the process was refused earlier (root, or
    argparse itself), the exit is the one [check_args] raises. *)
Theorem validation_before_any_session
        {CallbackThread Pts Stack TestCase ext : Type}
        (E : Env CallbackThread Pts Stack TestCase ext) x g :
  command_line_of E = CL_args g ->
  bad_configuration E g ->
  exists a,
    outcome E x = Sys_exit a /\
    exit_status (outcome E x) <> 0 /\
    (forall ev, In ev (trace E x) -> exists o, ev = Ev_parse_args o) /\
    ext_st (snd (process E x)) = x /\
    (geteuid E <> 0 ->
     forall args, ArgumentParser_parse_args E (CL_args g) = Ret args ->
                  check_args E args = Raise (SystemExit a)).
Proof.
  intros Hcl Hbad. unfold outcome, trace, process, script.
  destruct (Z.eq_dec (geteuid E) 0) as [Hroot | Hroot].
  { rewrite (main_as_root E _ Hroot). simpl. eexists.
    repeat split; [discriminate | intros ev [] | tauto]. }
  assert (Hap := argparse_outcome E (CL_args g)).
  destruct (ArgumentParser_parse_args E (CL_args g)) as [args | e | c] eqn:Hp;
    [| | destruct Hap].
  - destruct (check_args_rejects E _ _ Hp Hbad) as (msg & Hc).
    rewrite (main_rejected E _ (SystemExit (ExitStr msg)) Hroot).
    + simpl. eexists. repeat split; [discriminate | | ].
      * intros ev [<- | []]. eauto.
      * intros _ args' Ha. inversion Ha; subst. exact Hc.
    + right. exists args. rewrite Hcl. auto.
  - assert (He : e = SystemExit (ExitInt 2)).
    { destruct Hap as [-> | ->]; [| reflexivity]. exfalso.
      revert Hp. simpl. unfold argparse_error.
      repeat match goal with
             | |- context [match ?b with _ => _ end] => destruct b
             end; discriminate. }
    subst e. rewrite (main_rejected E _ (SystemExit (ExitInt 2)) Hroot).
    + simpl. eexists. repeat split; [discriminate | | ].
      * intros ev [<- | []]. eauto.
      * intros _ args' Ha. discriminate.
    + left. rewrite Hcl. exact Hp.
Qed.

Lemma validation_witness :
  let E := lab no_address 1000 (Ret tt) in
  bad_configuration E (lab_given None None None None None) /\
  exists a,
    outcome E no_pending = Sys_exit a /\
    exit_status (outcome E no_pending) <> 0 /\
    (forall ev, In ev (trace E no_pending) -> exists o, ev = Ev_parse_args o) /\
    ext_st (snd (process E no_pending)) = no_pending /\
    (geteuid E <> 0 ->
     forall args,
       ArgumentParser_parse_args E (CL_args (lab_given None None None None
                                                       None)) = Ret args ->
       check_args E args = Raise (SystemExit a)).
Proof.
  intros E.
  assert (Hbad : bad_configuration E (lab_given None None None None None)).
  { left. reflexivity. }
  split; [exact Hbad |].
  exact (validation_before_any_session E no_pending _ eq_refl Hbad).
Defined.

(** C5.  Exit statuses.  When the run was reached and every call of the
    script returned, the process ends with [os._exit(0)].  A
    [KeyboardInterrupt] leaving [main] gives 14, any exception other than
    [SystemExit] gives 16, and a [SystemExit] is left to the interpreter
    with its own argument; for a command line turned down by argparse or by
    [check_args] that status is not 0. *)
Theorem exit_statuses
        {CallbackThread Pts Stack TestCase ext : Type}
        (E : Env CallbackThread Pts Stack TestCase ext) x :
  (forall ps tcs adds r,
      In (Ev_run_test_cases ps tcs adds r (Ret tt)) (trace E x) ->
      Forall returned (trace E x) ->
      outcome E x = Os_exit 0 /\ exit_status (outcome E x) = 0) /\
  (forall s, main E (start x) = (Raise KeyboardInterrupt, s) ->
             outcome E x = Os_exit 14 /\ exit_status (outcome E x) = 14) /\
  (forall name s, main E (start x) = (Raise (OtherException name), s) ->
                  outcome E x = Os_exit 16 /\
                  exit_status (outcome E x) = 16) /\
  (forall a s, main E (start x) = (Raise (SystemExit a), s) ->
               outcome E x = Sys_exit a) /\
  (rejected_arguments E ->
   exists a, outcome E x = Sys_exit a /\ exit_status (outcome E x) <> 0).
Proof.
  split; [| split; [| split; [| split]]].
  - intros ps tcs adds r Hin HF.
    rewrite (process_completion E _ _ _ _ _ _ Hin HF). auto.
  - intros s H. unfold outcome, process, script. rewrite H. auto.
  - intros name s H. unfold outcome, process, script. rewrite H. auto.
  - intros a s H. unfold outcome, process, script. rewrite H. auto.
  - intros Hrej. unfold outcome, process, script.
    destruct (Z.eq_dec (geteuid E) 0) as [Hroot | Hroot].
    { rewrite (main_as_root E _ Hroot). simpl. eexists.
      split; [reflexivity | discriminate]. }
    destruct Hrej as [Hp | (args & Hp & Hc)].
    + rewrite (main_rejected E _ (SystemExit (ExitInt 2)) Hroot); [| auto].
      simpl. eexists. split; [reflexivity | discriminate].
    + destruct (check_args_outcome E args) as [Hok | (msg & Hno)];
        [contradiction |].
      rewrite (main_rejected E _ (SystemExit (ExitStr msg)) Hroot);
        [| eauto].
      simpl. eexists. split; [reflexivity | discriminate].
Qed.

Lemma exit_statuses_witness :
  exit_status (outcome (lab two_engines 1000 (Ret tt)) no_pending) = 0 /\
  exit_status (outcome (lab one_engine 1000 (Raise KeyboardInterrupt))
                       no_pending) = 14 /\
  exit_status (outcome (lab one_engine 1000 (Raise (OtherException "IOError")))
                       no_pending) = 16 /\
  exit_status (outcome (lab CL_usage_error 1000 (Ret tt)) no_pending) <> 0.
Proof.
  split; [| split; [| split]].
  - apply (proj1 (exit_statuses (lab two_engines 1000 (Ret tt)) no_pending)
                 ["192.168.0.2"; "192.168.0.3"]%string
                 ["GAP/A"; "MESH/A"]%string ["MESH/EXTRA"%string] 2).
    + vm_compute. repeat first [left; reflexivity | right].
    + vm_compute. repeat constructor.
  - eapply (proj1 (proj2 (exit_statuses
                            (lab one_engine 1000 (Raise KeyboardInterrupt))
                            no_pending))).
    vm_compute. reflexivity.
  - eapply (proj1 (proj2 (proj2 (exit_statuses
                            (lab one_engine 1000
                                 (Raise (OtherException "IOError")))
                            no_pending)))).
    vm_compute. reflexivity.
  - destruct (proj2 (proj2 (proj2 (proj2 (exit_statuses
                            (lab CL_usage_error 1000 (Ret tt))
                            no_pending)))))
      as (a & _ & Hne).
    + left. reflexivity.
    + exact Hne.
Defined.

(** X12.  On a [KeyboardInterrupt] the guard calls [os._exit(14)]
    at once: the process ends in the very state the interrupt left, with
    nothing cleared and nothing appended to the trace; when the interrupt
    came out of [run_test_cases], no engine session was unregistered and the
    IUT was not cleaned up. *)
Theorem interrupt_exits_at_once
        {CallbackThread Pts Stack TestCase ext : Type}
        (E : Env CallbackThread Pts Stack TestCase ext) x s :
  main E (start x) = (Raise KeyboardInterrupt, s) ->
  process E x = (Os_exit 14, s) /\
  forall ps tcs adds r,
    In (Ev_run_test_cases ps tcs adds r (Raise KeyboardInterrupt)) (log s) ->
    forall ev, In ev (log s) -> ~ release_event ev.
Proof.
  intros Hm. split.
  - unfold process, script. rewrite Hm. reflexivity.
  - intros ps tcs adds r Hin ev Hev.
    destruct (proj1 (main_run_shape E (start x) _ _ _ _ _ _ _
                                    eq_refl Hm Hin)).
    rewrite Htrace in Hev. apply in_app_or in Hev.
    destruct Hev as [Hev | [<- | Hev]].
    + eapply trace_to_run_holds; eauto.
    + simpl. auto.
    + apply Hstop in Hev; [| discriminate]. destruct Hev as (e & ->).
      simpl. auto.
Qed.

Lemma interrupt_exits_at_once_witness :
  let E := lab one_engine 1000 (Raise KeyboardInterrupt) in
  let s := snd (main E (start no_pending)) in
  main E (start no_pending) = (Raise KeyboardInterrupt, s) /\
  process E no_pending = (Os_exit 14, s) /\
  forall ps tcs adds r,
    In (Ev_run_test_cases ps tcs adds r (Raise KeyboardInterrupt)) (log s) ->
    forall ev, In ev (log s) -> ~ release_event ev.
Proof.
  intros E s.
  assert (H : main E (start no_pending) = (Raise KeyboardInterrupt, s)).
  { vm_compute. reflexivity. }
  split; [exact H |].
  exact (interrupt_exits_at_once E no_pending s H).
Defined.

(** * The Response Synchronizer *)

Lemma key_eqb_eq a b : key_eqb a b = true <-> a = b.
Proof.
  unfold key_eqb. destruct a as [s k], b as [s' k']. simpl.
  rewrite andb_true_iff, Nat.eqb_eq, String.eqb_eq. split.
  - intros [-> ->]. reflexivity.
  - intros H. inversion H. auto.
Qed.

Lemma filter_filter_length {A} (p q : A -> bool) l :
  (length (filter p (filter q l)) <= length (filter p l))%nat.
Proof.
  induction l as [| a l IH]; simpl; [lia |].
  destruct (q a); simpl; destruct (p a); simpl; lia.
Qed.

Lemma not_awaited_not_registered key sy :
  awaited key sy = false -> registered key sy = 0%nat.
Proof.
  unfold awaited, registered. induction (pending sy) as [| e l IH]; simpl.
  - reflexivity.
  - rewrite orb_false_iff. intros [He Hl]. rewrite He. auto.
Qed.

(** Serving a request never makes a key pending twice. *)
Lemma serve_keeps_keys_unique capacity sy rq :
  (forall key, registered key sy <= 1)%nat ->
  forall key, (registered key (serve capacity sy rq) <= 1)%nat.
Proof.
  intros Hinv key. destruct rq as [session kind | tok | session kind pl | tok];
    simpl.
  - unfold registerPending.
    destruct (awaited (session, kind) sy) eqn:Haw; [apply Hinv |].
    unfold registered. simpl.
    destruct (key_eqb key (session, kind)) eqn:Hk; [| apply Hinv].
    apply key_eqb_eq in Hk. subst key. simpl.
    apply not_awaited_not_registered in Haw. unfold registered in Haw.
    rewrite Haw. lia.
  - unfold registered, clearPending, drop_token. simpl.
    etransitivity; [apply filter_filter_length | apply Hinv].
  - unfold deliver.
    destruct (find _ (pending sy)); [| apply Hinv].
    unfold registered. simpl.
    etransitivity; [apply filter_filter_length | apply Hinv].
  - unfold awaitResponse.
    destruct (find _ (delivered sy)); simpl; [apply Hinv |].
    unfold registered, drop_token. simpl.
    etransitivity; [apply filter_filter_length | apply Hinv].
Qed.

Lemma serve_all_keeps_keys_unique capacity rqs :
  forall sy,
    (forall key, registered key sy <= 1)%nat ->
    forall key, (registered key (serve_all capacity rqs sy) <= 1)%nat.
Proof.
  unfold serve_all. induction rqs as [| rq rest IH]; intros sy Hinv; simpl.
  - exact Hinv.
  - apply IH. now apply serve_keeps_keys_unique.
Qed.

(** A request that does not settle an expectation leaves it pending. *)
Lemma serve_keeps_unsettled capacity sy rq tok key :
  settles tok key rq = false ->
  In (tok, key) (pending sy) ->
  In (tok, key) (pending (serve capacity sy rq)).
Proof.
  intros Hrq Hin.
  destruct rq as [session kind | t | session kind pl | t]; simpl in *.
  - unfold registerPending. destruct (awaited (session, kind) sy); simpl; auto.
  - unfold drop_token. apply filter_In. split; [exact Hin |].
    simpl. now rewrite Nat.eqb_sym, Hrq.
  - unfold deliver. destruct (find _ (pending sy)); simpl; [| exact Hin].
    apply filter_In. split; [exact Hin |]. simpl. now rewrite Hrq.
  - unfold awaitResponse. destruct (find _ (delivered sy)); simpl;
      [exact Hin |].
    unfold drop_token. apply filter_In. split; [exact Hin |].
    simpl. now rewrite Nat.eqb_sym, Hrq.
Qed.

Lemma serve_all_keeps_unsettled capacity rqs tok key :
  forall sy,
    forallb (fun rq => negb (settles tok key rq)) rqs = true ->
    In (tok, key) (pending sy) ->
    In (tok, key) (pending (serve_all capacity rqs sy)).
Proof.
  unfold serve_all. induction rqs as [| rq rest IH]; intros sy Hrqs Hin; simpl.
  - exact Hin.
  - simpl in Hrqs. apply andb_true_iff in Hrqs. destruct Hrqs as [Hrq Hrest].
    apply negb_true_iff in Hrq. apply IH; [exact Hrest |].
    now apply serve_keeps_unsettled.
Qed.

Lemma pending_is_awaited tok key sy :
  In (tok, key) (pending sy) -> awaited key sy = true.
Proof.
  intros Hin. unfold awaited. apply existsb_exists. exists (tok, key).
  split; [exact Hin |]. now apply key_eqb_eq.
Qed.

(** C8.  Whatever requests the synchronizer has served, no (session, kind)
    pair has more than one pending response; and once a registration for a
    pair was accepted, a further registration for it is refused, the state
    and the first expectation being left as they are, for as long as no
    request clears the token (explicitly or by a timed-out wait) or
    delivers to the pair. *)
Theorem one_pending_response_per_key capacity rqs :
  let sy := serve_all capacity rqs no_pending in
  (forall key, (registered key sy <= 1)%nat) /\
  (forall session kind tok sy1 more,
      registerPending session kind sy = Some (tok, sy1) ->
      forallb (fun rq => negb (settles tok (session, kind) rq)) more = true ->
      let sy2 := serve_all capacity more sy1 in
      registerPending session kind sy2 = None /\
      serve capacity sy2 (Register session kind) = sy2 /\
      In (tok, (session, kind)) (pending sy2)).
Proof.
  intros sy. split.
  - apply serve_all_keeps_keys_unique. intros key. unfold registered. simpl.
    lia.
  - intros session kind tok sy1 more Hreg Hmore sy2.
    assert (Hin : In (tok, (session, kind)) (pending sy2)).
    { apply serve_all_keeps_unsettled; [exact Hmore |].
      unfold registerPending in Hreg.
      destruct (awaited (session, kind) sy); [discriminate |].
      inversion Hreg; subst. simpl. auto. }
    assert (Hno : registerPending session kind sy2 = None).
    { unfold registerPending. now rewrite (pending_is_awaited _ _ _ Hin). }
    repeat split; [exact Hno | | exact Hin].
    simpl. now rewrite Hno.
Qed.

Lemma one_pending_response_witness :
  let sy := serve_all 8 [Register 0 "passkey"; Deliver 1 "gatt" "late"]
                      no_pending in
  let sy1 := snd (awaitResponse 7 (serve 8 sy (Register 1 "gatt"))) in
  (registerPending 1 "gatt" sy
   = Some (1%nat, serve 8 sy (Register 1 "gatt"))) /\
  registerPending 1 "gatt" sy1 = None /\
  serve 8 sy1 (Register 1 "gatt") = sy1 /\
  In (1%nat, (1%nat, "gatt"%string)) (pending sy1).
Proof.
  intros sy sy1.
  assert (H : registerPending 1 "gatt" sy
              = Some (1%nat, serve 8 sy (Register 1 "gatt"))).
  { vm_compute. reflexivity. }
  split; [exact H |].
  exact (proj2 (one_pending_response_per_key
                  8 [Register 0 "passkey"; Deliver 1 "gatt" "late"])
               1%nat "gatt"%string 1%nat _ [Await 7] H eq_refl).
Defined.

(** * Further properties of the script *)

(** ** check_args *)

(** X1.  [check_args] returns exactly for the namespaces that have a server
    address, a kernel image that is a file, and either a TTY under /dev/tty
    or /dev/pts that exists, or no TTY and a QEMU binary that is found. *)
Theorem check_args_accepts_iff
        {CallbackThread Pts Stack TestCase ext : Type}
        (E : Env CallbackThread Pts Stack TestCase ext) args :
  check_args E args = Ret tt <->
  truthy_list (ip_addr args) = true /\
  (if truthy_str (tty_file args)
   then (String.prefix "/dev/tty" (str (tty_file args)) = true \/
         String.prefix "/dev/pts" (str (tty_file args)) = true) /\
        path_exists E (str (tty_file args)) = true
   else truthy_str (find_executable E (QEMU_BIN E)) = true) /\
  path_isfile E (kernel_image args) = true.
Proof.
  unfold check_args, sys_exit.
  destruct (truthy_list (ip_addr args)); simpl;
    [| split; [discriminate | intros (H & _); discriminate]].
  destruct (truthy_str (tty_file args)).
  - destruct (String.prefix "/dev/tty" (str (tty_file args)));
      destruct (String.prefix "/dev/pts" (str (tty_file args)));
      destruct (path_exists E (str (tty_file args)));
      destruct (path_isfile E (kernel_image args)); simpl;
      (split; [intros H; try discriminate; auto 6
              | intros (_ & ([H | H] & H1) & H2);
                try discriminate; reflexivity]).
  - destruct (truthy_str (find_executable E (QEMU_BIN E)));
      destruct (path_isfile E (kernel_image args)); simpl;
      (split; [intros H; try discriminate; auto
              | intros (_ & H1 & H2); try discriminate; reflexivity]).
Qed.

Lemma check_args_accepts_witness :
  check_args (lab (CL_args over_tty) 1000 (Ret tt))
             (with_tty (Some "/dev/ttyUSB0"%string)
                       {| ip_addr := Some ["192.168.0.2"]%string;
                          local_addr := None; workspace := "zephyr-hci";
                          kernel_image := "zephyr.elf"; tty_file := None;
                          bd_addr := None; enable_max_logs := false;
                          board := None; test_cases := None;
                          excluded := None; retry := 0; store := false |})
  = Ret tt.
Proof.
  apply (proj2 (check_args_accepts_iff _ _)).
  simpl. auto.
Defined.

(** X2.  An empty [-t] value is validated as no TTY at all: the outcome of
    [check_args] is the one for a command line without [-t], so it depends
    on QEMU and is never "not a TTY file". *)
Theorem empty_tty_counts_as_no_tty
        {CallbackThread Pts Stack TestCase ext : Type}
        (E : Env CallbackThread Pts Stack TestCase ext) args :
  check_args E (with_tty (Some EmptyString) args)
  = check_args E (with_tty None args).
Proof.
  reflexivity.
Qed.

(** X3.  With a TTY given, QEMU plays no part in the validation: two
    environments with the same files give the same outcome of [check_args],
    whatever [QEMU_BIN] is and whether or not it is installed. *)
Theorem tty_makes_qemu_irrelevant
        {CallbackThread Pts Stack TestCase ext : Type}
        (E E' : Env CallbackThread Pts Stack TestCase ext) args :
  truthy_str (tty_file args) = true ->
  (forall p, path_exists E p = path_exists E' p) ->
  (forall p, path_isfile E p = path_isfile E' p) ->
  (forall t, repr E t = repr E' t) ->
  check_args E args = check_args E' args.
Proof.
  intros Htty Hex Hfile Hrepr. unfold check_args.
  rewrite Htty, !Hex, !Hfile, !Hrepr. reflexivity.
Qed.

Lemma tty_makes_qemu_irrelevant_witness :
  let args :=
    {| ip_addr := Some ["192.168.0.2"]%string;
       local_addr := None; workspace := "zephyr-hci";
       kernel_image := "zephyr.elf"; tty_file := Some "/dev/ttyUSB0"%string;
       bd_addr := None; enable_max_logs := false;
       board := None; test_cases := None;
       excluded := None; retry := 0; store := false |} in
  truthy_str (tty_file args) = true /\
  check_args (lab (CL_args over_tty) 1000 (Ret tt)) args
  = check_args (lab_without_qemu (CL_args over_tty)) args.
Proof.
  intros args. split; [reflexivity |].
  apply (tty_makes_qemu_irrelevant
           (lab (CL_args over_tty) 1000 (Ret tt))
           (lab_without_qemu (CL_args over_tty)) args);
    [reflexivity | intros p; reflexivity | intros p; reflexivity
     | intros t; reflexivity].
Defined.

(** ** parse_args *)

(** X4.  A [--board] outside the known board names, or a [--retry] value
    that is not an integer, is a usage error of argparse: unless the process
    runs as root it exits with status 2 right after parsing, [check_args] is
    not reached and the outside world is untouched. *)
Theorem unknown_board_or_retry_is_a_usage_error
        {CallbackThread Pts Stack TestCase ext : Type}
        (E : Env CallbackThread Pts Stack TestCase ext) x g :
  geteuid E <> 0 ->
  command_line_of E = CL_args g ->
  (exists b, cl_board g = Some b /\ ~ In b (board_names E)) \/
  (exists text, cl_retry g = Some text /\ py_int E text = None) ->
  outcome E x = Sys_exit (ExitInt 2) /\
  exit_status (outcome E x) = 2 /\
  trace E x = [Ev_parse_args (Raise (SystemExit (ExitInt 2)))] /\
  ext_st (snd (process E x)) = x.
Proof.
  intros Hroot Hcl Hbad.
  assert (Hp : ArgumentParser_parse_args E (command_line_of E)
               = Raise (SystemExit (ExitInt 2))).
  { rewrite Hcl. simpl. unfold argparse_error.
    destruct Hbad as [(b & Hb & Hnot) | (text & Ht & Hint)].
    - rewrite Hb.
      assert (Hex : existsb (String.eqb b) (board_names E) = false).
      { destruct (existsb (String.eqb b) (board_names E)) eqn:Hex;
          [| reflexivity].
        apply existsb_exists in Hex. destruct Hex as (b' & Hin & Heq).
        apply String.eqb_eq in Heq. subst b'. contradiction. }
      rewrite Hex.
      destruct (match cl_retry g with
                | Some text => py_int E text
                | None => Some 0
                end); reflexivity.
    - rewrite Ht, Hint. reflexivity. }
  unfold outcome, trace, process, script.
  rewrite (main_rejected E _ (SystemExit (ExitInt 2)) Hroot); [| auto].
  rewrite Hp. simpl. auto.
Qed.

Lemma unknown_board_witness :
  let E := lab (CL_args unknown_board) 1000 (Ret tt) in
  (geteuid E <> 0 /\
   exists b, cl_board unknown_board = Some b /\ ~ In b (board_names E)) /\
  outcome E no_pending = Sys_exit (ExitInt 2) /\
  exit_status (outcome E no_pending) = 2 /\
  trace E no_pending = [Ev_parse_args (Raise (SystemExit (ExitInt 2)))] /\
  ext_st (snd (process E no_pending)) = no_pending.
Proof.
  intros E.
  assert (Hroot : geteuid E <> 0) by (simpl; lia).
  assert (Hb : exists b, cl_board unknown_board = Some b /\
                         ~ In b (board_names E)).
  { exists "frdm_k64f"%string. split; [reflexivity |].
    simpl. intros [H | [H | []]]; discriminate H. }
  split; [split; [exact Hroot | exact Hb] |].
  exact (unknown_board_or_retry_is_a_usage_error
           E no_pending unknown_board Hroot eq_refl (or_introl Hb)).
Defined.

(** ** main: what happens around a failing call *)

Section Conduct_facts.

Context {CallbackThread Pts Stack TestCase ext : Type}.
Local Abbreviation Env' := (Env CallbackThread Pts Stack TestCase ext).
Local Abbreviation event' := (event CallbackThread Pts Stack TestCase).
Local Abbreviation pstate' := (pstate CallbackThread Pts Stack TestCase ext).
Local Abbreviation M' := (M CallbackThread Pts Stack TestCase ext).
Local Abbreviation extcall' := (extcall ext).
Variable E : Env'.

Lemma Forall_removelast {A} (P : A -> Prop) l :
  Forall P l -> Forall P (removelast l).
Proof.
  induction 1 as [| a l Ha Hl IH]; simpl; [constructor |].
  destruct l; [constructor | constructor; assumption].
Qed.

Lemma fail_stop_pure {A} (o : res A) :
  fail_stop (fun s : pstate' => (o, s)).
Proof.
  intros s s' o' H. inversion H; subst. exists [].
  rewrite app_nil_r. simpl. auto.
Qed.

Lemma fail_stop_bind {A B} (m : M' A) (k : A -> M' B) :
  fail_stop m -> (forall a, fail_stop (k a)) -> fail_stop (bind m k).
Proof.
  intros Hm Hk s s' o H. apply bind_inv in H.
  destruct H as [(a & sm & Ha & H) | [(e & Ha & ->) | (c & Ha & ->)]].
  - apply Hm in Ha. apply Hk in H.
    destruct Ha as (l1 & E1 & _ & F1), H as (l2 & E2 & R2 & F2).
    specialize (F1 (ex_intro _ a eq_refl)).
    exists (l1 ++ l2). rewrite E2, E1, app_assoc. split; [reflexivity |].
    split.
    + destruct l2 as [| ev l2].
      * rewrite app_nil_r. now apply Forall_removelast.
      * rewrite removelast_app by discriminate. apply Forall_app. auto.
    + intros Hr. apply Forall_app. auto.
  - apply Hm in Ha. destruct Ha as (l & El & Rl & _). exists l.
    repeat split; auto. intros (a & Ha). discriminate.
  - apply Hm in Ha. destruct Ha as (l & El & Rl & _). exists l.
    repeat split; auto. intros (a & Ha). discriminate.
Qed.

Lemma fail_stop_call {A} (f : extcall' A) (ev : res A -> event') :
  (forall a, returned (ev (Ret a))) -> fail_stop (call f ev).
Proof.
  intros Hev s s' o H. apply call_log in H. exists [ev o].
  split; [exact H |]. split; [constructor |].
  intros (a & ->). constructor; [apply Hev | constructor].
Qed.

Lemma fail_stop_lift {A} (r : res A) (ev : res A -> event') :
  (forall a, returned (ev (Ret a))) -> fail_stop (lift r ev : M' A).
Proof.
  intros Hev s s' o H. inversion H; subst. exists [ev o].
  split; [reflexivity |]. split; [constructor |].
  intros (a & ->). constructor; [apply Hev | constructor].
Qed.

Lemma fail_stop_emit (ev : event') :
  returned ev -> fail_stop (emit ev : M' unit).
Proof.
  intros Hev s s' o H. inversion H; subst. exists [ev].
  split; [reflexivity |]. split; constructor; auto.
Qed.

Lemma connect_ptses_fail_stop args cb table ips :
  forall acc, fail_stop (connect_ptses E args cb table ips acc).
Proof.
  induction ips as [| ip rest IH]; intros acc; simpl.
  - apply fail_stop_pure.
  - apply fail_stop_bind; [apply fail_stop_call; intros; exact I |].
    intros; apply IH.
Qed.

Lemma release_ptses_fail_stop ptses : fail_stop (release_ptses E ptses).
Proof.
  induction ptses as [| p rest IH]; simpl.
  - apply fail_stop_pure.
  - apply fail_stop_bind; [apply fail_stop_call; intros; exact I |].
    intros; apply IH.
Qed.

Ltac walk bind_step leaf :=
  repeat first
         [ leaf
         | bind_step; [| intros]
         | match goal with
           | |- context [match ?x with _ => _ end] => destruct x
           end ].

Lemma parse_args_fail_stop : fail_stop (parse_args E).
Proof.
  unfold parse_args.
  apply fail_stop_bind; [apply fail_stop_lift; intros; exact I |].
  intros args. destruct (check_args E args); apply fail_stop_pure.
Qed.

Lemma main_fail_stop : fail_stop (main E).
Proof.
  unfold main, enumerate_test_cases, select_test_cases, first_pts.
  walk ltac:(apply fail_stop_bind)
       ltac:(first [ apply fail_stop_pure
                   | apply parse_args_fail_stop
                   | apply connect_ptses_fail_stop
                   | apply release_ptses_fail_stop
                   | apply fail_stop_call; intros; exact I
                   | apply fail_stop_emit; exact I ]).
Qed.

Lemma returned_before_last (l1 : list event') ev rest :
  rest <> [] ->
  Forall returned (removelast (l1 ++ ev :: rest)) -> returned ev.
Proof.
  intros Hrest HF. rewrite removelast_app in HF by discriminate.
  apply Forall_app in HF. destruct HF as [_ HF].
  destruct rest as [| ev' rest]; [contradiction |].
  simpl in HF. inversion HF. assumption.
Qed.


(** *** Exceptions after the validation *)








(** *** [main] does not return *)

Lemma never_returns_quiet {A} (o : res A) :
  (forall a, o <> Ret a) -> never_returns (fun s : pstate' => (o, s)).
Proof.
  intros Ho s s' a H. inversion H; subst. destruct (Ho a eq_refl).
Qed.

Lemma never_returns_bind {A B} (m : M' A) (k : A -> M' B) :
  (forall a, never_returns (k a)) -> never_returns (bind m k).
Proof.
  intros Hk s s' b H. apply bind_inv in H.
  destruct H as [(a & sm & _ & H) | [(e & _ & He) | (c & _ & He)]];
    try discriminate.
  exact (Hk a _ _ _ H).
Qed.

Lemma main_never_returns : never_returns (main E).
Proof.
  unfold main. destruct (geteuid E =? 0).
  - apply never_returns_quiet. discriminate.
  - repeat first [ apply never_returns_quiet; discriminate
                 | apply never_returns_bind; intros
                 | match goal with
                   | |- never_returns (let '(_, _) := ?x in _) => destruct x
                   end ].
Qed.

(** *** What [main] logs *)

Lemma parse_args_emits (P : event' -> Prop) :
  (forall o, P (Ev_parse_args o)) -> emits P (parse_args E).
Proof.
  intros HP. unfold parse_args.
  apply emits_bind; [apply emits_lift; apply HP |].
  intros args. destruct (check_args E args); apply emits_silent.
Qed.

Lemma select_test_cases_emits (P : event' -> Prop) args tcs :
  (forall l n e o, P (Ev_get_test_cases_subset l n e o)) ->
  emits P (select_test_cases E args tcs).
Proof.
  intros HP. unfold select_test_cases.
  destruct (truthy_list (test_cases args) || truthy_list (excluded args));
    [apply emits_call; intros; apply HP | apply emits_silent].
Qed.

Lemma connect_ptses_emits_any (P : event' -> Prop) args cb table ips :
  (forall ip ws bd logs cb' tbl local o,
      P (Ev_init_pts ip ws bd logs cb' tbl local o)) ->
  forall acc, emits P (connect_ptses E args cb table ips acc).
Proof.
  intros HP acc. apply (emits_weaken init_pts_event).
  - intros []; simpl; try tauto. intros _. apply HP.
  - apply connect_ptses_emits.
Qed.

Lemma enumerate_test_cases_emits_any (P : event' -> Prop) ptses :
  (forall p pts o, P (Ev_test_cases p pts o)) ->
  (forall l o, P (Ev_mesh_test_cases l o)) ->
  emits P (enumerate_test_cases E ptses).
Proof.
  intros HP HM. apply (emits_weaken enumeration_event).
  - intros []; simpl; try tauto; intros _; [apply HP | apply HM].
  - apply enumerate_test_cases_emits.
Qed.

Lemma release_ptses_emits_any (P : event' -> Prop) ptses :
  (forall p o, P (Ev_unregister p o)) -> emits P (release_ptses E ptses).
Proof.
  intros HP. induction ptses as [| p rest IH]; simpl.
  - apply emits_silent.
  - apply emits_bind; [apply emits_call; intros; apply HP | intros; apply IH].
Qed.

Ltac emits_walk :=
  walk ltac:(apply emits_bind)
       ltac:(first [ apply emits_silent
                   | apply parse_args_emits; intros; exact I
                   | apply select_test_cases_emits; intros; exact I
                   | apply connect_ptses_emits_any; intros; exact I
                   | apply enumerate_test_cases_emits_any; intros; exact I
                   | apply release_ptses_emits_any; intros; exact I
                   | apply emits_call; intros; exact I
                   | apply emits_emit; exact I ]).

Lemma main_emits_main_events : emits main_event (main E).
Proof.
  unfold main. emits_walk.
Qed.

(** *** The connections *)




(** *** A run that completes *)
















(** *** The status of a run whose calls all returned *)






End Conduct_facts.

(** X5.  [main] has no handler of its own: once a call has raised or ended
    the process, no further call is made.  In every trace, an event that is
    followed by anything else than the printing of the traceback is a call
    that returned. *)
Theorem nothing_follows_a_failed_call
        {CallbackThread Pts Stack TestCase ext : Type}
        (E : Env CallbackThread Pts Stack TestCase ext) x l1 ev l2 :
  trace E x = l1 ++ ev :: l2 ->
  l2 <> [] ->
  (forall e, l2 <> [Ev_print_exc e]) ->
  returned ev.
Proof.
  unfold trace, process, script. intros Ht Hne Hpe.
  destruct (main E (start x)) as [o s'] eqn:Hm.
  destruct (main_fail_stop E _ _ _ Hm) as (l & El & Rl & _).
  simpl in El.
  assert (Hplain : log s' = l1 ++ ev :: l2 -> returned ev).
  { intros Heq. rewrite <- El, Heq in Rl.
    eapply returned_before_last; eauto. }
  destruct o as [u | [| a | name] | c]; simpl in Ht; auto.
  rewrite (app_removelast_last ev Hne) in Ht.
  change (l1 ++ ev :: removelast l2 ++ [last l2 ev])
    with (l1 ++ (ev :: removelast l2) ++ [last l2 ev]) in Ht.
  rewrite app_assoc in Ht. apply app_inj_tail in Ht.
  destruct Ht as [Ht Hlast].
  rewrite <- El, Ht in Rl.
  apply (returned_before_last l1 ev (removelast l2)); [| exact Rl].
  intros Hnil. apply (Hpe (OtherException name)).
  rewrite (app_removelast_last ev Hne), Hnil, <- Hlast. reflexivity.
Qed.

Lemma nothing_follows_witness :
  let E := lab one_engine 1000 (Raise (OtherException "IOError")) in
  let t := trace E no_pending in
  (t = firstn 1 t ++ Ev_init_core (Ret tt) :: skipn 2 t /\
   skipn 2 t <> []) /\
  returned (Ev_init_core (Ret tt)
            : event unit string unit string).
Proof.
  intros E t.
  assert (Ht : t = firstn 1 t ++ Ev_init_core (Ret tt) :: skipn 2 t)
    by (vm_compute; reflexivity).
  assert (Hne : skipn 2 t <> []) by (vm_compute; discriminate).
  split; [split; [exact Ht | exact Hne] |].
  apply (nothing_follows_a_failed_call E no_pending _ _ _ Ht Hne).
  intros e. vm_compute. discriminate.
Defined.

(** X7.  [main] never returns to the guard: the script does not run off
    its end, the process always ends through [os._exit] or a
    [SystemExit]. *)
Theorem script_never_runs_off_its_end
        {CallbackThread Pts Stack TestCase ext : Type}
        (E : Env CallbackThread Pts Stack TestCase ext) x :
  outcome E x <> Script_end.
Proof.
  unfold outcome, process, script.
  destruct (main E (start x)) as [[u | [| a | name] | c] s'] eqn:Hm;
    simpl; try discriminate.
  destruct (main_never_returns E _ _ _ Hm).
Qed.

(** X8.  The traceback is printed exactly when an exception other than
    [KeyboardInterrupt] and [SystemExit] leaves [main], and then it is the
    last thing the process does before [os._exit(16)]. *)
Theorem traceback_only_for_other_exceptions
        {CallbackThread Pts Stack TestCase ext : Type}
        (E : Env CallbackThread Pts Stack TestCase ext) x e :
  In (Ev_print_exc e) (trace E x) <->
  exists name s,
    e = OtherException name /\
    main E (start x) = (Raise e, s) /\
    trace E x = log s ++ [Ev_print_exc e] /\
    outcome E x = Os_exit 16.
Proof.
  unfold trace, outcome, process, script.
  destruct (main E (start x)) as [o s'] eqn:Hm.
  destruct (main_emits_main_events E _ _ _ Hm) as (l & El & Fl).
  simpl in El. subst l.
  assert (Hno : ~ In (Ev_print_exc e) (log s')).
  { intros Hin. rewrite Forall_forall in Fl. exact (Fl _ Hin). }
  split.
  - destruct o as [u | [| a | name] | c]; simpl; intros Hin;
      try contradiction.
    apply in_app_or in Hin. destruct Hin as [Hin | [Heq | []]];
      [contradiction |].
    inversion Heq; subst. exists name, s'. auto.
  - intros (name & s & -> & Heq & _). inversion Heq; subst. simpl.
    apply in_or_app. right. now left.
Qed.

Lemma traceback_witness :
  let E := lab one_engine 1000 (Raise (OtherException "IOError")) in
  In (Ev_print_exc (OtherException "IOError")) (trace E no_pending) /\
  exists name s,
    OtherException "IOError" = OtherException name /\
    main E (start no_pending) = (Raise (OtherException "IOError"), s) /\
    trace E no_pending = log s ++ [Ev_print_exc (OtherException "IOError")] /\
    outcome E no_pending = Os_exit 16.
Proof.
  intros E.
  assert (H : In (Ev_print_exc (OtherException "IOError"))
                 (trace E no_pending)).
  { vm_compute. repeat first [left; reflexivity | right]. }
  split; [exact H |].
  exact (proj1 (traceback_only_for_other_exceptions E no_pending _) H).
Defined.

(** ** main: the setup and the teardown *)









